(** * Baby bear field and guest I/O cursor of risc0

    Shallow embedding of
    - [src/risc0/zkp/rust/src/field/baby_bear.rs]: the prime field [Elem]
      modulo [P = 15 * 2^27 + 1], its degree-4 extension [ExtElem] and the
      roots-of-unity tables;
    - [src/risc0/zkvm/sdk/rust/guest/src/io.rs]: [host_sendrecv] and its
      read cursor [READ_PTR].

    Machine integers ([u32], [u64], [usize]) are values of [Z]; each
    operation writes out the wrap-around of its width. *)

From Stdlib Require Import ZArith NArith Lia List Field.
From Stdlib Require Import Zdivisibility Znumtheory Permutation Finite.
From Stdlib Require Import Zmod.ZmodDef Zmod.ZmodBase Zmod.ZmodInv.
Import ListNotations.

Local Open Scope Z_scope.

(** ** Machine integers *)

Definition u32_wrap (x : Z) : Z := x mod 2 ^ 32.
Definition u64_wrap (x : Z) : Z := x mod 2 ^ 64.

(** ** Base field, [baby_bear.rs] lines 42-205 *)

(** [const P: u32 = 15 * (1 << 27) + 1;] *)
Definition P : Z := 15 * Z.shiftl 1 27 + 1.
(** [const P_U64: u64 = P as u64;] *)
Definition P_U64 : Z := P.

(** [pub struct Elem(u32);] *)
Record Elem : Type := mk_Elem { val : Z }.

(** [pub const fn new(x: u32) -> Self { Self(x % P) }] *)
Definition Elem_new (x : Z) : Elem := mk_Elem (x mod P).

(** [impl From<u32> for Elem]: [Elem(x % P)] *)
Definition Elem_from_u32 (x : Z) : Elem := mk_Elem (x mod P).

(** [impl From<u64> for Elem]: [Elem((x % P_U64) as u32)] *)
Definition Elem_from_u64 (x : Z) : Elem := mk_Elem (u32_wrap (x mod P_U64)).

(** [impl From<Elem> for u32] and [impl From<&Elem> for u32]: [x.0]. *)
Definition u32_from_Elem (x : Elem) : Z := val x.

(** [impl From<Elem> for u64]: [x.0.into()], the [u32] widened. *)
Definition u64_from_Elem (x : Elem) : Z := val x.

(** [fn add(lhs: u32, rhs: u32) -> u32]: [let x = lhs + rhs;
    if x >= P { x - P } else { x }] (the [u32] sum wraps as in a release
    build). *)
Definition add (lhs rhs : Z) : Z :=
  let x := u32_wrap (lhs + rhs) in
  if x >=? P then u32_wrap (x - P) else x.

(** [fn sub(lhs: u32, rhs: u32) -> u32]: [let x = lhs.wrapping_sub(rhs);
    if x > P { x.wrapping_add(P) } else { x }] *)
Definition sub (lhs rhs : Z) : Z :=
  let x := u32_wrap (lhs - rhs) in
  if x >? P then u32_wrap (x + P) else x.

(** [fn mul(lhs: u32, rhs: u32) -> u32]:
    [(((lhs as u64) * (rhs as u64)) % P_U64) as u32] *)
Definition mul (lhs rhs : Z) : Z :=
  u32_wrap (u64_wrap (lhs * rhs) mod P_U64).

Definition Elem_add (a b : Elem) : Elem := mk_Elem (add (val a) (val b)).
Definition Elem_sub (a b : Elem) : Elem := mk_Elem (sub (val a) (val b)).
Definition Elem_mul (a b : Elem) : Elem := mk_Elem (mul (val a) (val b)).
(** [fn neg(self) -> Self { Elem(0) - self }] *)
Definition Elem_neg (a : Elem) : Elem := Elem_sub (mk_Elem 0) a.

Definition Elem_ZERO : Elem := Elem_new 0.
Definition Elem_ONE : Elem := Elem_new 1.

Declare Scope elem_scope.
Delimit Scope elem_scope with E.
Infix "+" := Elem_add : elem_scope.
Infix "-" := Elem_sub : elem_scope.
Infix "*" := Elem_mul : elem_scope.
Notation "- x" := (Elem_neg x) : elem_scope.

(** Modelled from the spec: the default [pow] of the [field::Elem] trait
    (crate [field], not under [src/]), "binary (square-and-multiply)
    exponentiation, [a^0 == 1]".  It is written as the same loop as
    [ExtElem::pow] (lines 243-255): [tot = ONE; x = self; while n != 0
    { if n % 2 == 1 { tot *= x } n = n / 2; x *= x }].  One recursive call
    is one iteration of the loop on the bits of [n]. *)
Fixpoint Elem_pow_loop (n : positive) (tot x : Elem) : Elem :=
  match n with
  | xH => Elem_mul tot x
  | xO n' => Elem_pow_loop n' tot (Elem_mul x x)
  | xI n' => Elem_pow_loop n' (Elem_mul tot x) (Elem_mul x x)
  end.

Definition Elem_pow (a : Elem) (n : N) : Elem :=
  match n with
  | N0 => Elem_ONE
  | Npos p => Elem_pow_loop p Elem_ONE a
  end.

(** [fn inv(self) -> Self { self.pow((P - 2) as usize) }] *)
Definition Elem_inv (a : Elem) : Elem := Elem_pow a (Z.to_N (P - 2)).

(** [fn random(rng)]: draw [u32] values from [rng] until one is below
    [REJECT_CUTOFF = (u32::MAX / P) * P], then [Elem::from(val)].  The
    generator is the list of [u32] values it yields; [None] when the list
    runs out before a value is accepted. *)
Definition u32_MAX : Z := 2 ^ 32 - 1.
Definition REJECT_CUTOFF : Z := (u32_MAX / P) * P.

Fixpoint Elem_random_loop (v : Z) (rng : list Z) : option (Elem * list Z) :=
  if v >=? REJECT_CUTOFF then
    match rng with
    | [] => None
    | v' :: rng' => Elem_random_loop v' rng'
    end
  else Some (Elem_from_u32 v, rng).

Definition Elem_random (rng : list Z) : option (Elem * list Z) :=
  match rng with
  | [] => None
  | v :: rng' => Elem_random_loop v rng'
  end.

(** A [BaseElem] is canonical when its integer lies in [[0, P)]. *)
Definition canonical (a : Elem) : Prop := 0 <= val a < P.

Definition canonicalb (a : Elem) : bool := (0 <=? val a) && (val a <? P).

(** ** Roots of unity, lines 86-108 *)

Definition MAX_ROU_PO2 : nat := 27.

Definition ROU_FWD : list Elem := map Elem_new
  [1; 2013265920; 284861408; 1801542727; 567209306; 740045640; 918899846; 1881002012;
   1453957774; 65325759; 1538055801; 515192888; 483885487; 157393079; 1695124103; 2005211659;
   1540072241; 88064245; 1542985445; 1269900459; 1461624142; 825701067; 682402162; 1311873874;
   1164520853; 352275361; 18769; 137].

Definition ROU_REV : list Elem := map Elem_new
  [1; 2013265920; 1728404513; 1592366214; 196396260; 1253260071; 72041623; 1091445674;
   145223211; 1446820157; 1030796471; 2010749425; 1827366325; 1239938613; 246299276;
   596347512; 1893145354; 246074437; 1525739923; 1194341128; 1463599021; 704606912; 95395244;
   15672543; 647517488; 584175179; 137728885; 749463956].

(** The three table facts at index [i], as a boolean test. *)
Definition rou_ok (i : nat) : bool :=
  let w := nth i ROU_FWD Elem_ZERO in
  let w' := nth i ROU_REV Elem_ZERO in
  (val (Elem_mul w w') =? val Elem_ONE)
  && (val (Elem_pow w (N.pow 2 (N.of_nat i))) =? val Elem_ONE)
  && (match i with
      | O => true
      | S j => negb (val (Elem_pow w (N.pow 2 (N.of_nat j))) =? val Elem_ONE)
      end).

(** ** Extension field, lines 207-455 *)

(** [pub struct ExtElem([Elem; EXT_SIZE]);] with [EXT_SIZE = 4]: the
    coefficients of [a0 + a1 x + a2 x^2 + a3 x^3]. *)
Record ExtElem : Type := mk_ExtElem { e0 : Elem; e1 : Elem; e2 : Elem; e3 : Elem }.

Definition coeffs (a : ExtElem) : list Elem := [e0 a; e1 a; e2 a; e3 a].

(** [const BETA: Elem = Elem::new(11);] and [const NBETA: Elem = Elem::new(P - 11);] *)
Definition BETA : Elem := Elem_new 11.
Definition NBETA : Elem := Elem_new (P - 11).

(** [ExtElem::from_u32], [zero], [one] (lines 325-337). *)
Definition ExtElem_from_u32 (x0 : Z) : ExtElem :=
  mk_ExtElem (Elem_new x0) (Elem_new 0) (Elem_new 0) (Elem_new 0).
Definition ExtElem_ZERO : ExtElem := ExtElem_from_u32 0.
Definition ExtElem_ONE : ExtElem := ExtElem_from_u32 1.

(** [impl From<u32> for ExtElem] (line 445). *)
Definition ExtElem_from_u32' (x : Z) : ExtElem :=
  mk_ExtElem (Elem_from_u32 x) Elem_ZERO Elem_ZERO Elem_ZERO.

(** [impl From<Elem> for ExtElem] (line 451); [from_subfield] and
    [from_fp] build the same value. *)
Definition ExtElem_from (x : Elem) : ExtElem :=
  mk_ExtElem x Elem_ZERO Elem_ZERO Elem_ZERO.

Local Open Scope elem_scope.

(** [add_assign] / [sub_assign]: coefficient-wise. *)
Definition ExtElem_add (a b : ExtElem) : ExtElem :=
  mk_ExtElem (e0 a + e0 b) (e1 a + e1 b) (e2 a + e2 b) (e3 a + e3 b).
Definition ExtElem_sub (a b : ExtElem) : ExtElem :=
  mk_ExtElem (e0 a - e0 b) (e1 a - e1 b) (e2 a - e2 b) (e3 a - e3 b).
(** [fn neg(self) -> Self { ExtElem::ZERO - self }] *)
Definition ExtElem_neg (a : ExtElem) : ExtElem := ExtElem_sub ExtElem_ZERO a.

(** [impl ops::MulAssign<Elem> for ExtElem]: scalar multiplication. *)
Definition ExtElem_scale (a : ExtElem) (r : Elem) : ExtElem :=
  mk_ExtElem (e0 a * r) (e1 a * r) (e2 a * r) (e3 a * r).

(** [impl ops::Mul<ExtElem> for Elem]: [rhs * self]. *)
Definition Elem_mul_ExtElem (lhs : Elem) (rhs : ExtElem) : ExtElem := ExtElem_scale rhs lhs.

(** [impl ops::MulAssign for ExtElem] (lines 415-427). *)
Definition ExtElem_mul (a b : ExtElem) : ExtElem :=
  mk_ExtElem
    (e0 a * e0 b + NBETA * (e1 a * e3 b + e2 a * e2 b + e3 a * e1 b))
    (e0 a * e1 b + e1 a * e0 b + NBETA * (e2 a * e3 b + e3 a * e2 b))
    (e0 a * e2 b + e1 a * e1 b + e2 a * e0 b + NBETA * (e3 a * e3 b))
    (e0 a * e3 b + e1 a * e2 b + e2 a * e1 b + e3 a * e0 b).

(** [fn pow(self, n: usize)] (lines 243-255), one recursive call per
    iteration of the [while n != 0] loop. *)
Fixpoint ExtElem_pow_loop (n : positive) (tot x : ExtElem) : ExtElem :=
  match n with
  | xH => ExtElem_mul tot x
  | xO n' => ExtElem_pow_loop n' tot (ExtElem_mul x x)
  | xI n' => ExtElem_pow_loop n' (ExtElem_mul tot x) (ExtElem_mul x x)
  end.

Definition ExtElem_pow (a : ExtElem) (n : N) : ExtElem :=
  match n with
  | N0 => ExtElem_from_u32' 1
  | Npos p => ExtElem_pow_loop p (ExtElem_from_u32' 1) a
  end.

(** [fn inv(self)] (lines 258-291), split at its [let]s. *)
Definition inv_b0 (a : ExtElem) : Elem :=
  e0 a * e0 a + BETA * (e1 a * (e3 a + e3 a) - e2 a * e2 a).
Definition inv_b2 (a : ExtElem) : Elem :=
  e0 a * (e2 a + e2 a) - e1 a * e1 a + BETA * (e3 a * e3 a).
(** [let c = b0 * b0 + BETA * b2 * b2;] *)
Definition inv_c (a : ExtElem) : Elem :=
  let b0 := inv_b0 a in
  let b2 := inv_b2 a in
  b0 * b0 + BETA * b2 * b2.

Definition ExtElem_inv (a : ExtElem) : ExtElem :=
  let ic := Elem_inv (inv_c a) in
  let b0 := inv_b0 a * ic in
  let b2 := inv_b2 a * ic in
  mk_ExtElem
    (e0 a * b0 + BETA * e2 a * b2)
    (- e1 a * b0 + NBETA * e3 a * b2)
    (- e0 a * b2 + e2 a * b0)
    (e1 a * b2 - e3 a * b0).

(** [fn random(rng)]: four successive [Elem::random] draws. *)
Definition ExtElem_random (rng : list Z) : option (ExtElem * list Z) :=
  match Elem_random rng with
  | None => None
  | Some (x0, rng) =>
    match Elem_random rng with
    | None => None
    | Some (x1, rng) =>
      match Elem_random rng with
      | None => None
      | Some (x2, rng) =>
        match Elem_random rng with
        | None => None
        | Some (x3, rng) => Some (mk_ExtElem x0 x1 x2 x3, rng)
        end
      end
    end
  end.

Local Close Scope elem_scope.

Definition ext_canonical (a : ExtElem) : Prop :=
  canonical (e0 a) /\ canonical (e1 a) /\ canonical (e2 a) /\ canonical (e3 a).

(** ** Multiplication as the specification describes it

    Polynomial multiplication of the two degree-3 coefficient lists, then
    reduction modulo [x^4 - r] with [x^4 = r]: this is the spec's reading of
    [ExtElem * ExtElem], to be compared with [ExtElem_mul]. *)
Fixpoint poly_add (p q : list Z) : list Z :=
  match p, q with
  | [], q => q
  | p, [] => p
  | x :: p', y :: q' => (x + y) :: poly_add p' q'
  end.

Fixpoint poly_mul (p q : list Z) : list Z :=
  match p with
  | [] => []
  | x :: p' => poly_add (map (Z.mul x) q) (0 :: poly_mul p' q)
  end.

(** Fold every coefficient of [x^k], [k >= 4], onto [x^(k-4)] times [r]. *)
Fixpoint reduce_quartic (r : Z) (fuel : nat) (d : list Z) : list Z :=
  match fuel with
  | O => d
  | S f =>
    if (length d <=? 4)%nat then d
    else reduce_quartic r f (poly_add (firstn 4 d) (map (Z.mul r) (skipn 4 d)))
  end.

Definition spec_ext_mul (r : Z) (a b : ExtElem) : list Z :=
  let d := poly_mul (map val (coeffs a)) (map val (coeffs b)) in
  map (fun z => z mod P) (reduce_quartic r (length d) d).

(** ** Guest I/O, [io.rs] *)

(** Modelled from the spec: [risc0_zkvm::platform::WORD_SIZE] (not under
    [src/]); the response is read through a [*const u32], "a 32-bit
    byte-count header followed by ceil(byte_count / word_size) words". *)
Definition WORD_SIZE : Z := 4.

(** [usize] of the 32-bit guest, wrapping as in a release build. *)
Definition usize_wrap (x : Z) : Z := x mod 2 ^ 32.

(** The [INPUT] memory region: [len_words] words, and the words the host
    has written there when the call reads them. *)
Record Region : Type := mk_Region { len_words : Z; word_at : Z -> Z }.

(** The words at offsets [start], ..., [start + n - 1]. *)
Definition zseq (start n : Z) : list Z :=
  map (fun i => start + Z.of_nat i) (seq 0 (Z.to_nat n)).

Inductive SendRecvResult : Type :=
| Returned (response_data : list Z) (response_nbytes : Z) (read_ptr : Z)
| Panicked.

(** [pub fn host_sendrecv(channel: u32, buf: &[u8]) -> (&'static [u32], usize)]
    with the value of [READ_PTR] passed in and returned.  The three GPIO
    writes of [channel], [buf.len()] and [buf.as_ptr()] only signal the host;
    its reply is the content of [INPUT]. *)
Definition host_sendrecv (INPUT : Region) (read_ptr : Z) (channel : Z) (buf : list Z)
  : SendRecvResult :=
  let response_nbytes := word_at INPUT read_ptr in
  let read_ptr := usize_wrap (read_ptr + 1) in
  let response_nwords :=
    usize_wrap (usize_wrap (response_nbytes + WORD_SIZE) - 1) / WORD_SIZE in
  if usize_wrap (read_ptr + response_nwords) <? len_words INPUT then
    Returned (map (word_at INPUT) (zseq read_ptr response_nwords))
             response_nbytes
             (usize_wrap (read_ptr + response_nwords))
  else Panicked.

(** Values of [READ_PTR] reachable by a sequence of calls that return, from
    its initial value [0], over an [INPUT] region of [len] words whose
    content the host may change between calls. *)
Inductive read_ptr_reachable (len : Z) : Z -> Prop :=
| reach_init : read_ptr_reachable len 0
| reach_step (rp rp' : Z) (words : Z -> Z) (channel : Z) (buf : list Z)
    (data : list Z) (nbytes : Z) :
    read_ptr_reachable len rp ->
    host_sendrecv (mk_Region len words) rp channel buf = Returned data nbytes rp' ->
    read_ptr_reachable len rp'.

(** ** Auxiliary definitions of the proofs *)

(** Trial division by [d], [d + 1], ..., [d + k - 1]. *)
Fixpoint no_divisor_from (p d : Z) (k : nat) : bool :=
  match k with
  | O => true
  | S k' => negb (p mod d =? 0) && no_divisor_from p (d + 1) k'
  end.

(** A canonical value as an element of [Z/PZ]. *)
Definition to_F (a : Elem) : Zmod.Zmod P := Zmod.of_Z P (val a).

(** Repeated products in a monoid [(op, e)]: [x^n] and the product of a list. *)
Fixpoint mpow {A : Type} (op : A -> A -> A) (e x : A) (n : nat) : A :=
  match n with
  | O => e
  | S n' => op x (mpow op e x n')
  end.

Definition mprod {A : Type} (op : A -> A -> A) (e : A) (l : list A) : A :=
  fold_right op e l.

(** All canonical [BaseElem]s and all [ExtElem]s with canonical
    coefficients, as lists (never evaluated: [P^4] elements). *)
Definition canon_elems : list Elem :=
  map (fun n => mk_Elem (Z.of_nat n)) (seq 0 (Z.to_nat P)).

Definition quad_to_ext (q : (Elem * Elem) * (Elem * Elem)) : ExtElem :=
  let '((a, b), (c, d)) := q in mk_ExtElem a b c d.

Definition canon_ext_elems : list ExtElem :=
  map quad_to_ext
    (list_prod (list_prod canon_elems canon_elems) (list_prod canon_elems canon_elems)).

Definition ext_eqb (a b : ExtElem) : bool :=
  (val (e0 a) =? val (e0 b)) && (val (e1 a) =? val (e1 b)) &&
  (val (e2 a) =? val (e2 b)) && (val (e3 a) =? val (e3 b)).

Definition nonzero_ext_elems : list ExtElem :=
  filter (fun a => negb (ext_eqb a ExtElem_ZERO)) canon_ext_elems.

(** * Properties *)

(** ** Arithmetic of the [u32] helpers on canonical values *)

Lemma P_eq : P = 2013265921.
Proof. reflexivity. Qed.

Lemma P_pos : 0 < P.
Proof. rewrite P_eq; lia. Qed.

Ltac P_arith := rewrite ?P_eq; first [lia | reflexivity | (compute; congruence)].

Ltac unfold_ops :=
  unfold add, sub, mul, u32_wrap, u64_wrap, P_U64 in *; rewrite ?P_eq in *.

Lemma add_canon (x y : Z) :
  0 <= x < P -> 0 <= y < P -> add x y = (x + y) mod P.
Proof.
  intros Hx Hy; unfold_ops.
  destruct (Z.geb_spec ((x + y) mod 2 ^ 32) 2013265921);
    Z.to_euclidean_division_equations; lia.
Qed.

Lemma sub_canon (x y : Z) :
  0 <= x < P -> 0 <= y < P -> sub x y = (x - y) mod P.
Proof.
  intros Hx Hy; unfold_ops.
  destruct (Z.gtb_spec ((x - y) mod 2 ^ 32) 2013265921);
    Z.to_euclidean_division_equations; lia.
Qed.

Lemma mul_canon (x y : Z) :
  0 <= x < P -> 0 <= y < P -> mul x y = (x * y) mod P.
Proof.
  intros Hx Hy; unfold_ops.
  rewrite (Z.mod_small (x * y)) by nia.
  apply Z.mod_small.
  pose proof (Z.mod_pos_bound (x * y) 2013265921); lia.
Qed.

Lemma mul_range (x y : Z) : 0 <= mul x y < P.
Proof.
  unfold_ops.
  pose proof (Z.mod_pos_bound (x * y mod 2 ^ 64) 2013265921 ltac:(lia)).
  rewrite Z.mod_small; lia.
Qed.

Lemma mod_P_range (x : Z) : 0 <= x mod P < P.
Proof. apply Z.mod_pos_bound, P_pos. Qed.

(** ** Canonical values are closed under the operations *)

Create HintDb canon.

Lemma canonical_add (a b : Elem) :
  canonical a -> canonical b -> canonical (Elem_add a b).
Proof. unfold canonical; simpl; intros; rewrite add_canon; auto using mod_P_range. Qed.

Lemma canonical_sub (a b : Elem) :
  canonical a -> canonical b -> canonical (Elem_sub a b).
Proof. unfold canonical; simpl; intros; rewrite sub_canon; auto using mod_P_range. Qed.

Lemma canonical_mul (a b : Elem) : canonical (Elem_mul a b).
Proof. unfold canonical; simpl; apply mul_range. Qed.

Lemma canonical_zero_lit : canonical (mk_Elem 0).
Proof. unfold canonical; simpl; rewrite P_eq; lia. Qed.

Lemma canonical_neg (a : Elem) : canonical a -> canonical (Elem_neg a).
Proof. intros; apply canonical_sub; auto using canonical_zero_lit. Qed.

Lemma canonical_new (x : Z) : canonical (Elem_new x).
Proof. apply mod_P_range. Qed.

Lemma canonical_from_u32 (x : Z) : canonical (Elem_from_u32 x).
Proof. apply mod_P_range. Qed.

Lemma canonical_pow_loop (n : positive) (tot x : Elem) :
  canonical (Elem_pow_loop n tot x).
Proof.
  revert tot x; induction n; intros; simpl; auto using canonical_mul.
Qed.

Lemma canonical_pow (a : Elem) (n : N) : canonical (Elem_pow a n).
Proof. destruct n; simpl; unfold Elem_ONE; auto using canonical_pow_loop, canonical_new. Qed.

Lemma canonical_inv (a : Elem) : canonical (Elem_inv a).
Proof. unfold Elem_inv; apply canonical_pow. Qed.

#[export] Hint Resolve canonical_add canonical_sub canonical_mul canonical_neg
  canonical_new canonical_from_u32 canonical_pow canonical_inv
  canonical_zero_lit : canon.

Lemma canonical_BETA : canonical BETA.
Proof. apply canonical_new. Qed.
Lemma canonical_NBETA : canonical NBETA.
Proof. apply canonical_new. Qed.
#[export] Hint Resolve canonical_BETA canonical_NBETA : canon.

Lemma val_add (a b : Elem) :
  canonical a -> canonical b -> val (Elem_add a b) = (val a + val b) mod P.
Proof. intros; apply add_canon; auto. Qed.

Lemma val_sub (a b : Elem) :
  canonical a -> canonical b -> val (Elem_sub a b) = (val a - val b) mod P.
Proof. intros; apply sub_canon; auto. Qed.

Lemma val_mul (a b : Elem) :
  canonical a -> canonical b -> val (Elem_mul a b) = (val a * val b) mod P.
Proof. intros; apply mul_canon; auto. Qed.

Lemma canonical_eq (a b : Elem) :
  val a = val b -> a = b.
Proof. destruct a, b; simpl; intros ->; reflexivity. Qed.

(** ** [P] is prime *)

Lemma no_divisor_from_spec (p : Z) (k : nat) :
  forall d, no_divisor_from p d k = true ->
  forall e, d <= e < d + Z.of_nat k -> p mod e <> 0.
Proof.
  induction k as [|k IH]; cbn [no_divisor_from]; intros d H e He; [lia|].
  apply andb_prop in H as [H1 H2].
  destruct (Z.eq_dec e d) as [->|Hne].
  - intros E; rewrite E in H1; discriminate.
  - apply (IH (d + 1)); auto; lia.
Qed.

Lemma prime_P : Z.prime P.
Proof.
  assert (Hc : no_divisor_from P 2 (Z.to_nat 44868) = true) by (vm_compute; reflexivity).
  pose proof (no_divisor_from_spec _ _ _ Hc) as Hd; rewrite Z2Nat.id in Hd by lia.
  split; [rewrite P_eq; lia|].
  intros n Hn [m Hm].
  assert (Hm1 : 1 < m) by (rewrite P_eq in *; nia).
  assert (Hsq : n * n <= P \/ m * m <= P) by (rewrite P_eq in *; nia).
  destruct Hsq as [Hsq|Hsq].
  - apply (Hd n); [rewrite P_eq in *; nia|].
    rewrite Hm; apply Z.mod_mul; lia.
  - apply (Hd m); [rewrite P_eq in *; nia|].
    rewrite Hm, Z.mul_comm; apply Z.mod_mul; lia.
Qed.

(** ** Canonical values as elements of [Z/PZ] *)

Add Ring ZmodP_ring : (Zmod.ring_theory P).
Add Field ZmodP_field : (Zmod.field_theory P prime_P).

Lemma to_F_add (a b : Elem) :
  canonical a -> canonical b -> to_F (Elem_add a b) = Zmod.add (to_F a) (to_F b).
Proof.
  intros; unfold to_F; simpl; rewrite add_canon by auto.
  rewrite Zmod.of_Z_mod, Zmod.of_Z_add; reflexivity.
Qed.

Lemma to_F_sub (a b : Elem) :
  canonical a -> canonical b -> to_F (Elem_sub a b) = Zmod.sub (to_F a) (to_F b).
Proof.
  intros; unfold to_F; simpl; rewrite sub_canon by auto.
  rewrite Zmod.of_Z_mod, Zmod.of_Z_sub; reflexivity.
Qed.

Lemma to_F_mul (a b : Elem) :
  canonical a -> canonical b -> to_F (Elem_mul a b) = Zmod.mul (to_F a) (to_F b).
Proof.
  intros; unfold to_F; simpl; rewrite mul_canon by auto.
  rewrite Zmod.of_Z_mod, Zmod.of_Z_mul; reflexivity.
Qed.

Lemma to_F_neg (a : Elem) :
  canonical a -> to_F (Elem_neg a) = Zmod.opp (to_F a).
Proof.
  intros; unfold Elem_neg; rewrite to_F_sub by auto with canon.
  unfold to_F; simpl; rewrite Zmod.of_Z_0; ring.
Qed.

Lemma to_F_inj (a b : Elem) :
  canonical a -> canonical b -> to_F a = to_F b -> a = b.
Proof.
  unfold canonical, to_F; intros Ha Hb E.
  apply Zmod.of_Z_inj in E; rewrite !Z.mod_small in E by auto.
  apply canonical_eq; exact E.
Qed.

Lemma to_F_NBETA : to_F NBETA = Zmod.opp (to_F BETA).
Proof.
  unfold to_F, NBETA, BETA, Elem_new; simpl.
  rewrite !Zmod.of_Z_mod, <- Zmod.of_Z_opp.
  apply Zmod.of_Z_inj; rewrite P_eq; reflexivity.
Qed.

(** ** Exponentiation and Fermat inversion *)

Lemma mul_pow_mod (t y k : Z) : (t * (y mod P) ^ k) mod P = (t * y ^ k) mod P.
Proof.
  assert (HP : P <> 0) by (rewrite ?P_eq; lia).
  rewrite <- (Z.mul_mod_idemp_r t ((y mod P) ^ k) P HP).
  rewrite Z.mod_pow_l, Z.mul_mod_idemp_r by exact HP; reflexivity.
Qed.

Lemma pow_loop_spec (p : positive) (tot x : Elem) :
  canonical tot -> canonical x ->
  val (Elem_pow_loop p tot x) = (val tot * val x ^ Z.pos p) mod P.
Proof.
  revert tot x; induction p as [p IH|p IH|]; intros tot x Ht Hx; cbn [Elem_pow_loop].
  - rewrite IH by auto with canon; cbn [val Elem_mul].
    rewrite !mul_canon by auto.
    rewrite Z.mul_mod_idemp_l by (rewrite ?P_eq; lia).
    rewrite mul_pow_mod.
    f_equal; rewrite Pos2Z.inj_xI, Z.pow_add_r, Z.pow_mul_r, Z.pow_1_r, Z.pow_2_r by lia.
    ring.
  - rewrite IH by auto with canon; cbn [val Elem_mul].
    rewrite !mul_canon by auto.
    rewrite mul_pow_mod.
    f_equal; rewrite Pos2Z.inj_xO, Z.pow_mul_r, Z.pow_2_r by lia.
    ring.
  - cbn [val Elem_mul]; rewrite mul_canon by auto; rewrite Z.pow_1_r; reflexivity.
Qed.

Lemma pow_spec (a : Elem) (n : N) :
  canonical a -> val (Elem_pow a n) = val a ^ Z.of_N n mod P.
Proof.
  intros Ha; destruct n as [|p]; cbn [Elem_pow].
  - reflexivity.
  - unfold Elem_ONE; rewrite pow_loop_spec by auto with canon.
    unfold Elem_new; cbn [val]; rewrite Z.mod_1_l by (rewrite ?P_eq; lia).
    f_equal; rewrite Z.mul_1_l; reflexivity.
Qed.

Lemma inv_mul_cancel (a : Elem) :
  canonical a -> val a <> 0 -> Elem_mul (Elem_inv a) a = Elem_ONE.
Proof.
  intros Ha Hnz; apply canonical_eq; unfold Elem_inv.
  rewrite val_mul by auto with canon.
  rewrite pow_spec by auto.
  unfold Elem_ONE, Elem_new; cbn [val].
  rewrite Z.mul_mod_idemp_l by (rewrite ?P_eq; lia).
  rewrite Z2N.id by (rewrite ?P_eq; lia).
  replace (val a ^ (P - 2) * val a) with (val a ^ (P - 1)).
  2:{ replace (P - 1) with (Z.succ (P - 2)) by lia.
      rewrite Z.pow_succ_r by (rewrite ?P_eq; lia); ring. }
  rewrite Z.mod_1_l by (rewrite ?P_eq; lia).
  rewrite Z.fermat_nz; [reflexivity|apply prime_P|].
  unfold canonical in Ha; rewrite Z.mod_small; auto.
Qed.

(** ** [11] and [-11] are not squares modulo [P] *)

Lemma pow_11_half : val (Elem_pow (mk_Elem 11) (Z.to_N ((P - 1) / 2))) = P - 1.
Proof. vm_compute; reflexivity. Qed.

Lemma pow_m11_half : val (Elem_pow (mk_Elem (P - 11)) (Z.to_N ((P - 1) / 2))) = P - 1.
Proof. vm_compute; reflexivity. Qed.

Lemma not_square_mod (r : Z) :
  0 <= r < P ->
  val (Elem_pow (mk_Elem r) (Z.to_N ((P - 1) / 2))) = P - 1 ->
  forall z, (z * z) mod P <> r.
Proof.
  intros Hr Hpow z Hz.
  rewrite pow_spec in Hpow by exact Hr; cbn [val] in Hpow.
  rewrite Z2N.id in Hpow by (rewrite P_eq; compute; discriminate).
  assert (Hnz : z mod P <> 0).
  { intros E; rewrite Z.mul_mod, E in Hz by (rewrite ?P_eq; lia).
    rewrite P_eq in *; simpl in Hz; subst r.
    rewrite Z.pow_0_l in Hpow by reflexivity; discriminate. }
  pose proof (Z.fermat_nz P z prime_P Hnz) as F.
  replace (P - 1) with (2 * ((P - 1) / 2)) in F by (rewrite P_eq; reflexivity).
  rewrite Z.pow_mul_r, Z.pow_2_r, <- Z.mod_pow_l, Hz, Hpow in F by P_arith.
  rewrite P_eq in F; discriminate.
Qed.

Lemma to_F_BETA : to_F BETA = Zmod.of_Z P 11.
Proof. unfold to_F, BETA, Elem_new; cbn [val]; apply Zmod.of_Z_mod. Qed.

Lemma sq_ne_beta (z : Zmod.Zmod P) : Zmod.mul z z <> to_F BETA.
Proof.
  rewrite to_F_BETA, <- (Zmod.of_Z_unsigned z), <- Zmod.of_Z_mul.
  intros E; apply Zmod.of_Z_inj in E.
  refine (not_square_mod 11 _ pow_11_half _ E); rewrite P_eq; lia.
Qed.

Lemma sq_ne_nbeta (z : Zmod.Zmod P) : Zmod.mul z z <> Zmod.opp (to_F BETA).
Proof.
  rewrite to_F_BETA, <- Zmod.of_Z_opp, <- (Zmod.of_Z_unsigned z), <- Zmod.of_Z_mul.
  intros E; apply Zmod.of_Z_inj in E.
  replace ((- 11) mod P) with (P - 11) in E by (rewrite P_eq; reflexivity).
  refine (not_square_mod (P - 11) _ pow_m11_half _ E); rewrite P_eq; lia.
Qed.

(** ** The norm [u0^2 + 11 u1^2] of [F_P[y] / (y^2 + 11)] vanishes only at [0] *)

Lemma F_sq_zero (u : Zmod.Zmod P) : Zmod.mul u u = Zmod.zero -> u = Zmod.zero.
Proof.
  intros E; apply (Zmod.mul_0_iff_prime prime_P) in E; tauto.
Qed.

Lemma norm_zero (u0 u1 : Zmod.Zmod P) :
  Zmod.add (Zmod.mul u0 u0) (Zmod.mul (to_F BETA) (Zmod.mul u1 u1)) = Zmod.zero ->
  u0 = Zmod.zero /\ u1 = Zmod.zero.
Proof.
  intros E.
  destruct (Zmod.eqb_spec u1 Zmod.zero) as [H1|H1].
  - subst u1; split; [|reflexivity].
    apply F_sq_zero; rewrite <- E; ring.
  - exfalso; apply (sq_ne_nbeta (Zmod.mdiv u0 u1)).
    assert (E' : Zmod.mul u0 u0 = Zmod.mul (Zmod.opp (to_F BETA)) (Zmod.mul u1 u1)).
    { transitivity (Zmod.sub (Zmod.add (Zmod.mul u0 u0) (Zmod.mul (to_F BETA) (Zmod.mul u1 u1)))
                             (Zmod.mul (to_F BETA) (Zmod.mul u1 u1))); [ring|].
      rewrite E; ring. }
    transitivity (Zmod.mdiv (Zmod.mul u0 u0) (Zmod.mul u1 u1)); [field; exact H1|].
    rewrite E'; field; exact H1.
Qed.

Lemma sq_eq_beta_sq (x y : Zmod.Zmod P) :
  Zmod.mul x x = Zmod.mul (to_F BETA) (Zmod.mul y y) -> y = Zmod.zero.
Proof.
  intros HN.
  destruct (Zmod.eqb_spec y Zmod.zero) as [E|E]; [exact E|exfalso].
  apply (sq_ne_beta (Zmod.mdiv x y)).
  transitivity (Zmod.mdiv (Zmod.mul x x) (Zmod.mul y y)); [field; exact E|].
  rewrite HN; field; exact E.
Qed.

(** ** The extension field through [to_F] *)

Declare Scope F_scope.
Delimit Scope F_scope with F.
Infix "+" := Zmod.add : F_scope.
Infix "-" := Zmod.sub : F_scope.
Infix "*" := Zmod.mul : F_scope.
Notation "- x" := (Zmod.opp x) : F_scope.
Notation "0" := Zmod.zero : F_scope.
Notation "1" := Zmod.one : F_scope.

Ltac F_push :=
  repeat first
    [ rewrite to_F_add by auto with canon
    | rewrite to_F_sub by auto with canon
    | rewrite to_F_mul by auto with canon
    | rewrite to_F_neg by auto with canon ].

Ltac F_push_in H :=
  repeat first
    [ rewrite to_F_add in H by auto with canon
    | rewrite to_F_sub in H by auto with canon
    | rewrite to_F_mul in H by auto with canon
    | rewrite to_F_neg in H by auto with canon ].

Lemma to_F_new (x : Z) : to_F (Elem_new x) = Zmod.of_Z P x.
Proof. apply Zmod.of_Z_mod. Qed.

Lemma to_F_canonical_zero (a : Elem) : canonical a -> to_F a = Zmod.zero -> val a = 0.
Proof.
  unfold canonical, to_F; intros Ha E.
  rewrite <- Zmod.of_Z_0 in E; apply Zmod.of_Z_inj in E.
  rewrite Z.mod_small in E by exact Ha; exact E.
Qed.

Section ExtInv.

Local Open Scope F_scope.

Variable a : ExtElem.
Hypothesis Ha : ext_canonical a.

Let A0 := to_F (e0 a).
Let A1 := to_F (e1 a).
Let A2 := to_F (e2 a).
Let A3 := to_F (e3 a).
Let beta := to_F BETA.

Let H0 : canonical (e0 a). Proof. apply Ha. Qed.
Let H1 : canonical (e1 a). Proof. apply Ha. Qed.
Let H2 : canonical (e2 a). Proof. apply Ha. Qed.
Let H3 : canonical (e3 a). Proof. apply Ha. Qed.
#[local] Hint Resolve H0 H1 H2 H3 : canon.

Lemma canonical_inv_b0 : canonical (inv_b0 a).
Proof. unfold inv_b0; auto with canon. Qed.
Lemma canonical_inv_b2 : canonical (inv_b2 a).
Proof. unfold inv_b2; auto with canon. Qed.
#[local] Hint Resolve canonical_inv_b0 canonical_inv_b2 : canon.
Lemma canonical_inv_c : canonical (inv_c a).
Proof. unfold inv_c; auto with canon. Qed.
#[local] Hint Resolve canonical_inv_c : canon.

Lemma to_F_inv_b0 :
  to_F (inv_b0 a) = A0 * A0 + beta * (A1 * (A3 + A3) - A2 * A2).
Proof. unfold inv_b0; F_push; reflexivity. Qed.

Lemma to_F_inv_b2 :
  to_F (inv_b2 a) = A0 * (A2 + A2) - A1 * A1 + beta * (A3 * A3).
Proof. unfold inv_b2; F_push; reflexivity. Qed.

Lemma to_F_inv_c :
  to_F (inv_c a) = to_F (inv_b0 a) * to_F (inv_b0 a)
                   + beta * (to_F (inv_b2 a) * to_F (inv_b2 a)).
Proof. unfold inv_c; F_push; fold beta; ring. Qed.

(** [c] vanishes only at [ExtElem::ZERO]. *)
Lemma inv_c_zero : val (inv_c a) = 0%Z -> a = ExtElem_ZERO.
Proof.
  intros Hc.
  assert (HC : to_F (inv_c a) = 0) by (unfold to_F; rewrite Hc; apply Zmod.of_Z_0).
  rewrite to_F_inv_c in HC; apply norm_zero in HC as [HB0 HB2].
  rewrite to_F_inv_b0 in HB0; rewrite to_F_inv_b2 in HB2.
  set (NA := A0 * A0 + beta * (A2 * A2)).
  set (NB := A1 * A1 + beta * (A3 * A3)).
  assert (HN : NA * NA = beta * (NB * NB)).
  { set (B0 := A0 * A0 + beta * (A1 * (A3 + A3) - A2 * A2)) in HB0.
    set (B2 := A0 * (A2 + A2) - A1 * A1 + beta * (A3 * A3)) in HB2.
    set (Y0 := - (beta * (A1 * A3 + A1 * A3))).
    set (Y1 := A1 * A1 - beta * (A3 * A3)).
    transitivity (beta * (NB * NB) + ((Y0 * B0 + beta * (Y1 * B2))
                    + (Y0 * B0 + beta * (Y1 * B2))) + (B0 * B0 + beta * (B2 * B2))).
    - unfold NA, NB, B0, B2, Y0, Y1; ring.
    - rewrite HB0, HB2; ring. }
  assert (HNB : NB = 0) by exact (sq_eq_beta_sq _ _ HN).
  assert (HNA : NA = 0).
  { apply F_sq_zero; rewrite HN, HNB; ring. }
  apply norm_zero in HNA as [Z0 Z2]; apply norm_zero in HNB as [Z1 Z3].
  destruct a as [a0 a1 a2 a3]; cbn [e0 e1 e2 e3] in *.
  unfold ExtElem_ZERO, ExtElem_from_u32, Elem_new; cbn.
  f_equal; apply canonical_eq; apply to_F_canonical_zero; auto.
Qed.

End ExtInv.

Lemma ext_inv_mul_one_core (a : ExtElem) :
  ext_canonical a -> a <> ExtElem_ZERO ->
  ExtElem_mul (ExtElem_inv a) a = ExtElem_ONE.
Proof.
  intros Ha Hnz.
  assert (Hc : val (inv_c a) <> 0) by (intros E; apply Hnz, (inv_c_zero a Ha E)).
  pose proof (canonical_inv_c a) as Hcc.
  pose proof (canonical_inv_b0 a) as Hb0.
  pose proof (canonical_inv_b2 a) as Hb2.
  pose proof (inv_mul_cancel _ Hcc Hc) as HIC.
  apply (f_equal to_F) in HIC.
  rewrite to_F_mul in HIC by auto with canon.
  rewrite (to_F_inv_c a), (to_F_inv_b0 a Ha), (to_F_inv_b2 a Ha) in HIC.
  unfold Elem_ONE in HIC; rewrite to_F_new, Zmod.of_Z_1 in HIC.
  pose proof Ha as Ha'; destruct Ha' as (H0 & H1 & H2 & H3).
  unfold ExtElem_mul, ExtElem_inv, ExtElem_ONE, ExtElem_from_u32.
  cbv beta zeta; cbn [e0 e1 e2 e3].
  set (ic := Elem_inv (inv_c a)) in *.
  assert (Hic : canonical ic) by apply canonical_inv.
  clearbody ic.
  f_equal; apply to_F_inj; auto with canon; F_push;
    rewrite ?to_F_NBETA, ?to_F_new, ?Zmod.of_Z_1, ?Zmod.of_Z_0;
    rewrite ?(to_F_inv_b0 a Ha), ?(to_F_inv_b2 a Ha).
  - rewrite <- HIC; ring.
  - ring.
  - ring.
  - ring.
Qed.

(** ** Helpers for the claims *)

Lemma Elem_pow_Fermat (a : Elem) :
  canonical a -> val a <> 0 -> Elem_pow a (Z.to_N (P - 1)) = Elem_ONE.
Proof.
  intros Ha Hnz; apply canonical_eq.
  rewrite pow_spec by exact Ha.
  rewrite Z2N.id by P_arith.
  unfold Elem_ONE, Elem_new; cbn [val].
  rewrite Z.mod_1_l by P_arith.
  apply Z.fermat_nz; [apply prime_P|].
  unfold canonical in Ha; rewrite Z.mod_small; auto.
Qed.


Lemma rou_ok_all : forallb rou_ok (seq 0 28) = true.
Proof. vm_compute; reflexivity. Qed.

Lemma add_zero_r (x : Z) : 0 <= x < P -> add x 0 = x.
Proof.
  intros H; rewrite add_canon; [| exact H | rewrite P_eq; lia].
  rewrite Z.add_0_r; apply Z.mod_small; exact H.
Qed.

Lemma mul_zero_r (x : Z) : mul x 0 = 0.
Proof. unfold mul; rewrite Z.mul_0_r; reflexivity. Qed.

Lemma mul_zero_l (x : Z) : mul 0 x = 0.
Proof. unfold mul; reflexivity. Qed.

Lemma to_F_NBETA_Z : to_F NBETA = Zmod.of_Z P (-11).
Proof.
  unfold to_F, NBETA, Elem_new; cbn [val].
  apply Zmod.of_Z_inj; rewrite P_eq; reflexivity.
Qed.

Lemma val_eq_mod (x : Elem) (e : Z) :
  canonical x -> to_F x = Zmod.of_Z P e -> val x = e mod P.
Proof.
  unfold canonical, to_F; intros Hx E.
  apply Zmod.of_Z_inj in E; rewrite Z.mod_small in E by exact Hx; exact E.
Qed.

(** ** Closure of the canonical range, continued *)

Lemma canonical_from_u64 (x : Z) : canonical (Elem_from_u64 x).
Proof.
  unfold canonical, Elem_from_u64, u32_wrap, P_U64; cbn [val].
  pose proof (mod_P_range x) as H.
  rewrite (Z.mod_small (x mod P) (2 ^ 32)); [exact H|]. rewrite P_eq in *; lia.
Qed.

Lemma canonical_random_loop (rng : list Z) :
  forall v e rest, Elem_random_loop v rng = Some (e, rest) -> canonical e.
Proof.
  induction rng as [|v' rng IH]; intros v e rest; cbn [Elem_random_loop];
    destruct (v >=? REJECT_CUTOFF); try discriminate; eauto;
    intros E; injection E as <- _; apply canonical_from_u32.
Qed.

Lemma canonical_random (rng : list Z) e rest :
  Elem_random rng = Some (e, rest) -> canonical e.
Proof. destruct rng; [discriminate|apply canonical_random_loop]. Qed.

Ltac ext_canon :=
  unfold ext_canonical; refine (conj _ (conj _ (conj _ _))); cbn [e0 e1 e2 e3];
  auto with canon.

Lemma ext_canonical_mul (u v : ExtElem) : ext_canonical (ExtElem_mul u v).
Proof. unfold ExtElem_mul; ext_canon. Qed.

Lemma ext_canonical_from_u32' (x : Z) : ext_canonical (ExtElem_from_u32' x).
Proof. unfold ExtElem_from_u32', Elem_ZERO; ext_canon. Qed.

Lemma ext_canonical_pow (u : ExtElem) (n : N) : ext_canonical (ExtElem_pow u n).
Proof.
  destruct n as [|p]; [apply ext_canonical_from_u32'|]; cbn [ExtElem_pow].
  generalize (ExtElem_from_u32' 1) u; induction p; intros tot x; cbn [ExtElem_pow_loop];
    auto using ext_canonical_mul.
Qed.

Lemma ext_canonical_inv (u : ExtElem) : ext_canonical (ExtElem_inv u).
Proof. unfold ExtElem_inv, inv_b0, inv_b2; cbv zeta; ext_canon. Qed.

Lemma ext_canonical_random (rng : list Z) e rest :
  ExtElem_random rng = Some (e, rest) -> ext_canonical e.
Proof.
  unfold ExtElem_random.
  destruct (Elem_random rng) as [[x0 r0]|] eqn:E0; [|discriminate].
  destruct (Elem_random r0) as [[x1 r1]|] eqn:E1; [|discriminate].
  destruct (Elem_random r1) as [[x2 r2]|] eqn:E2; [|discriminate].
  destruct (Elem_random r2) as [[x3 r3]|] eqn:E3; [|discriminate].
  intros E; injection E as <- _.
  refine (conj _ (conj _ (conj _ _))); cbn [e0 e1 e2 e3];
    eapply canonical_random; eassumption.
Qed.

(** ** The input cursor *)

Lemma usize_wrap_small (x : Z) : 0 <= x < 2 ^ 32 -> usize_wrap x = x.
Proof. intros; unfold usize_wrap; apply Z.mod_small; auto. Qed.

Lemma usize_wrap_range (x : Z) : 0 <= usize_wrap x < 2 ^ 32.
Proof. unfold usize_wrap; apply Z.mod_pos_bound; lia. Qed.

Lemma length_zseq (start n : Z) : length (zseq start n) = Z.to_nat n.
Proof. unfold zseq; rewrite length_map, length_seq; reflexivity. Qed.

Lemma host_sendrecv_returned_bound (INPUT : Region) rp channel buf data nbytes rp' :
  host_sendrecv INPUT rp channel buf = Returned data nbytes rp' ->
  0 <= rp' < len_words INPUT.
Proof.
  unfold host_sendrecv; cbv zeta.
  match goal with |- context [if ?c then _ else _] => destruct c eqn:E end;
    [|discriminate].
  intros H; injection H as _ _ <-; apply Z.ltb_lt in E.
  pose proof (usize_wrap_range (usize_wrap (rp + 1) +
    usize_wrap (usize_wrap (word_at INPUT rp + WORD_SIZE) - 1) / WORD_SIZE)); lia.
Qed.

(** ** Lagrange's theorem for a finite group of units

    In a commutative monoid on a carrier [C], multiplication by a unit [x]
    of a duplicate-free list [U] of units closed under it permutes [U], so
    [x ^ length U = e]. *)
Section Lagrange.
Variable A : Type.
Variable C : A -> Prop.
Variable op : A -> A -> A.
Variable e : A.
Hypothesis C_e : C e.
Hypothesis C_op : forall x y, C (op x y).
Hypothesis op_comm : forall x y, C x -> C y -> op x y = op y x.
Hypothesis op_assoc :
  forall x y z, C x -> C y -> C z -> op x (op y z) = op (op x y) z.
Hypothesis op_e : forall x, C x -> op e x = x.

Lemma op_e_r (x : A) : C x -> op x e = x.
Proof. intros; rewrite op_comm; auto. Qed.

Lemma C_mpow (x : A) (n : nat) : C (mpow op e x n).
Proof. destruct n; cbn [mpow]; auto. Qed.

Lemma C_mprod (l : list A) : C (mprod op e l).
Proof. destruct l; cbn; auto. Qed.

Lemma op_swap4 (a b c d : A) : C a -> C b -> C c -> C d ->
  op (op a b) (op c d) = op (op a c) (op b d).
Proof.
  intros; rewrite <- !op_assoc by auto; f_equal.
  rewrite !op_assoc by auto; f_equal; apply op_comm; auto.
Qed.

Lemma mpow_add (x : A) (a b : nat) : C x ->
  mpow op e x (a + b) = op (mpow op e x a) (mpow op e x b).
Proof.
  intros Hx; induction a as [|a IH]; cbn [mpow Nat.add].
  - rewrite op_e; auto using C_mpow.
  - rewrite IH, op_assoc; auto using C_mpow.
Qed.

Lemma mpow_sq (x : A) (k : nat) : C x ->
  mpow op e (op x x) k = mpow op e x (k + k).
Proof.
  intros Hx; induction k as [|k IH]; [reflexivity|].
  replace (S k + S k)%nat with (S (S (k + k))) by lia.
  cbn [mpow]; rewrite IH, op_assoc; auto using C_mpow.
Qed.

Lemma mpow_one (x : A) : C x -> mpow op e x 1 = x.
Proof. intros; cbn [mpow]; apply op_e_r; auto. Qed.

Lemma mprod_perm (l l' : list A) : (forall y, In y l -> C y) ->
  Permutation l l' -> mprod op e l = mprod op e l'.
Proof.
  intros HC HP; induction HP as [|y l l' HP IH|y y' l|l l' l'' HP1 IH1 HP2 IH2];
    cbn [mprod fold_right] in *.
  - reflexivity.
  - f_equal; apply IH; intros; apply HC; right; auto.
  - rewrite !op_assoc by (first [apply (C_mprod l) | apply HC; cbn; auto]).
    f_equal; apply op_comm; apply HC; cbn; auto.
  - rewrite IH1 by auto; apply IH2.
    intros y Hy; apply HC; apply Permutation_in with l'; auto.
    apply Permutation_sym; exact HP1.
Qed.

Lemma mprod_map_op (x : A) (l : list A) : C x -> (forall y, In y l -> C y) ->
  mprod op e (map (op x) l) = op (mpow op e x (length l)) (mprod op e l).
Proof.
  intros Hx; induction l as [|y l IH]; intros HC; cbn [map length mpow mprod fold_right] in *.
  - rewrite op_e; auto.
  - assert (Hy : C y) by (apply HC; left; auto).
    fold (mprod op e (map (op x) l)) (mprod op e l).
    rewrite IH by (intros; apply HC; right; auto).
    apply op_swap4; auto using C_mpow, C_mprod.
Qed.

Lemma mprod_unit (l : list A) :
  (forall y, In y l -> C y /\ exists y', C y' /\ op y' y = e) ->
  exists p', C p' /\ op p' (mprod op e l) = e.
Proof.
  induction l as [|y l IH]; intros H; cbn [mprod fold_right].
  - exists e; auto.
  - destruct (H y (or_introl eq_refl)) as [Hy [y' [Hy' E]]].
    destruct IH as [p' [Hp' E']]; [intros; apply H; right; auto|].
    exists (op y' p'); split; auto.
    fold (mprod op e l).
    rewrite op_swap4, E, E' by auto using C_mprod; auto.
Qed.

Variable U : list A.
Hypothesis U_nodup : NoDup U.
Hypothesis U_units : forall y, In y U -> C y /\ exists y', C y' /\ op y' y = e.
Variable x : A.
Hypothesis x_in : In x U.
Hypothesis U_closed : forall y, In y U -> In (op x y) U.

Lemma mpow_length_units : mpow op e x (length U) = e.
Proof.
  destruct (U_units x x_in) as [Hx [x' [Hx' Ex]]].
  assert (HC : forall y, In y U -> C y) by (intros y Hy; apply U_units; auto).
  assert (Hperm : Permutation (map (op x) U) U).
  { apply NoDup_Permutation_bis.
    - apply Injective_map_NoDup_in; [|exact U_nodup].
      intros y z Hy Hz E.
      rewrite <- (op_e y), <- (op_e z) by auto.
      rewrite <- Ex, <- !op_assoc, E by auto; reflexivity.
    - rewrite length_map; lia.
    - intros y Hy; apply in_map_iff in Hy as [z [<- Hz]]; auto. }
  assert (HCm : forall y, In y (map (op x) U) -> C y)
    by (intros y Hy; apply in_map_iff in Hy as [z [<- _]]; auto).
  pose proof (mprod_perm _ _ HCm Hperm) as E.
  rewrite mprod_map_op in E by auto.
  destruct (mprod_unit U U_units) as [p' [Hp' Ep]].
  assert (Hw : C (mpow op e x (length U))) by apply C_mpow.
  assert (HPi : C (mprod op e U)) by apply C_mprod.
  transitivity (op (mpow op e x (length U)) (op p' (mprod op e U))).
  - rewrite Ep; symmetry; apply op_e_r; exact Hw.
  - rewrite op_assoc, (op_comm _ p'), <- op_assoc, E, Ep by auto.
    reflexivity.
Qed.
End Lagrange.

(** ** [ExtElem_mul] is a commutative monoid on canonical elements *)

Lemma ext_eq_of_to_F (a b : ExtElem) : ext_canonical a -> ext_canonical b ->
  to_F (e0 a) = to_F (e0 b) -> to_F (e1 a) = to_F (e1 b) ->
  to_F (e2 a) = to_F (e2 b) -> to_F (e3 a) = to_F (e3 b) -> a = b.
Proof.
  destruct a, b; intros (? & ? & ? & ?) (? & ? & ? & ?); cbn [e0 e1 e2 e3] in *.
  intros; f_equal; apply to_F_inj; auto.
Qed.

Lemma ext_canonical_ONE : ext_canonical ExtElem_ONE.
Proof. unfold ExtElem_ONE, ExtElem_from_u32; ext_canon. Qed.

Lemma ext_canonical_ZERO : ext_canonical ExtElem_ZERO.
Proof. unfold ExtElem_ZERO, ExtElem_from_u32; ext_canon. Qed.

Ltac ext_ring_eq :=
  apply ext_eq_of_to_F; auto using ext_canonical_mul;
  unfold ExtElem_mul, ExtElem_ONE, ExtElem_ZERO, ExtElem_from_u32; cbn [e0 e1 e2 e3];
  F_push; rewrite ?to_F_new, ?Zmod.of_Z_1, ?Zmod.of_Z_0; ring.

Lemma ext_mul_comm (a b : ExtElem) : ext_canonical a -> ext_canonical b ->
  ExtElem_mul a b = ExtElem_mul b a.
Proof. intros (? & ? & ? & ?) (? & ? & ? & ?); ext_ring_eq. Qed.

Lemma ext_mul_assoc (a b c : ExtElem) :
  ext_canonical a -> ext_canonical b -> ext_canonical c ->
  ExtElem_mul a (ExtElem_mul b c) = ExtElem_mul (ExtElem_mul a b) c.
Proof. intros (? & ? & ? & ?) (? & ? & ? & ?) (? & ? & ? & ?); ext_ring_eq. Qed.

Lemma ext_mul_ONE_l (a : ExtElem) : ext_canonical a -> ExtElem_mul ExtElem_ONE a = a.
Proof. intros Ha; pose proof Ha as (? & ? & ? & ?); ext_ring_eq. Qed.

Lemma ext_mul_ZERO_r (a : ExtElem) : ext_canonical a ->
  ExtElem_mul a ExtElem_ZERO = ExtElem_ZERO.
Proof. intros (? & ? & ? & ?); pose proof ext_canonical_ZERO; ext_ring_eq. Qed.

(** ** The nonzero canonical [ExtElem]s, listed *)

Lemma in_canon_elems (a : Elem) : In a canon_elems <-> canonical a.
Proof.
  unfold canon_elems, canonical; rewrite in_map_iff; split.
  - intros [n [<- Hn]]; apply in_seq in Hn; cbn [val].
    pose proof P_pos; lia.
  - destruct a as [v]; cbn [val]; intros Hv; exists (Z.to_nat v).
    split; [f_equal; lia|]. apply in_seq; lia.
Qed.

Lemma NoDup_canon_elems : NoDup canon_elems.
Proof.
  apply Injective_map_NoDup; [|apply seq_NoDup].
  intros n m E; injection E; lia.
Qed.

Lemma NoDup_list_prod {A B : Type} (l1 : list A) (l2 : list B) :
  NoDup l1 -> NoDup l2 -> NoDup (list_prod l1 l2).
Proof.
  intros N1 N2; induction N1 as [|a l1 Ha N1 IH]; cbn [list_prod]; [constructor|].
  apply NoDup_app; auto.
  - apply Injective_map_NoDup; auto; intros y y' E; injection E; auto.
  - intros [x y] Hin Hin'; apply in_map_iff in Hin as [y'' [E _]]; injection E as <- _.
    apply in_prod_iff in Hin' as [Hx _]; contradiction.
Qed.

Lemma in_canon_ext_elems (a : ExtElem) : In a canon_ext_elems <-> ext_canonical a.
Proof.
  unfold canon_ext_elems; rewrite in_map_iff; split.
  - intros [[[x0 x1] [x2 x3]] [<- Hq]].
    apply in_prod_iff in Hq as [H01 H23].
    apply in_prod_iff in H01 as [H0 H1]; apply in_prod_iff in H23 as [H2 H3].
    rewrite in_canon_elems in H0, H1, H2, H3; exact (conj H0 (conj H1 (conj H2 H3))).
  - destruct a as [x0 x1 x2 x3]; intros (H0 & H1 & H2 & H3); cbn [e0 e1 e2 e3] in *.
    exists ((x0, x1), (x2, x3)); split; [reflexivity|].
    rewrite <- in_canon_elems in H0, H1, H2, H3.
    apply in_prod_iff; split; apply in_prod_iff; auto.
Qed.

Lemma NoDup_canon_ext_elems : NoDup canon_ext_elems.
Proof.
  apply Injective_map_NoDup.
  - intros [[a b] [c d]] [[a' b'] [c' d']] E; cbn in E; injection E; congruence.
  - pose proof NoDup_canon_elems as N.
    apply NoDup_list_prod; apply NoDup_list_prod; exact N.
Qed.

Lemma length_canon_ext_elems :
  length canon_ext_elems =
  (Z.to_nat P * Z.to_nat P * (Z.to_nat P * Z.to_nat P))%nat.
Proof.
  unfold canon_ext_elems, canon_elems.
  rewrite length_map, !length_prod, length_map, length_seq; reflexivity.
Qed.

Lemma ext_eqb_spec (a b : ExtElem) : ext_eqb a b = true <-> a = b.
Proof.
  destruct a, b; unfold ext_eqb; cbn [e0 e1 e2 e3].
  rewrite !Bool.andb_true_iff, !Z.eqb_eq; split.
  - intros (((E0 & E1) & E2) & E3); f_equal; apply canonical_eq; auto.
  - intros E; injection E as -> -> -> ->; tauto.
Qed.

Lemma length_filter_neq {A : Type} (eqb : A -> A -> bool)
    (Heqb : forall a b, eqb a b = true <-> a = b) (z : A) (l : list A) :
  NoDup l -> In z l -> length (filter (fun a => negb (eqb a z)) l) = pred (length l).
Proof.
  intros N; induction N as [|y l Hy N IH]; intros Hz; [destruct Hz|].
  cbn [filter length].
  destruct (eqb y z) eqn:E; cbn [negb].
  - apply Heqb in E; subst y; cbn [pred].
    clear IH Hz N; induction l as [|w l IHl]; [reflexivity|]; cbn [filter length].
    destruct (eqb w z) eqn:E'.
    + apply Heqb in E'; subst; exfalso; apply Hy; left; auto.
    + cbn [negb]; cbn [length]; f_equal; apply IHl; intros H; apply Hy; right; auto.
  - destruct Hz as [Hz|Hz].
    + subst; assert (eqb z z = true) by (apply Heqb; auto); congruence.
    + cbn [length]; rewrite IH by exact Hz; destruct l; [destruct Hz|reflexivity].
Qed.

Lemma in_nonzero_ext_elems (a : ExtElem) :
  In a nonzero_ext_elems <-> ext_canonical a /\ a <> ExtElem_ZERO.
Proof.
  unfold nonzero_ext_elems; rewrite filter_In, in_canon_ext_elems.
  destruct (ext_eqb a ExtElem_ZERO) eqn:E; cbn [negb].
  - apply ext_eqb_spec in E; split; [intros [_ F]; discriminate | tauto].
  - split; [intros [H _]; split; auto; intros ->; rewrite (proj2 (ext_eqb_spec _ _) eq_refl) in E; discriminate|].
    intros [H _]; auto.
Qed.

Lemma NoDup_nonzero_ext_elems : NoDup nonzero_ext_elems.
Proof. apply NoDup_filter, NoDup_canon_ext_elems. Qed.

Lemma length_nonzero_ext_elems :
  length nonzero_ext_elems =
  pred (Z.to_nat P * Z.to_nat P * (Z.to_nat P * Z.to_nat P))%nat.
Proof.
  unfold nonzero_ext_elems; rewrite <- length_canon_ext_elems.
  apply length_filter_neq; [exact ext_eqb_spec | apply NoDup_canon_ext_elems|].
  apply in_canon_ext_elems, ext_canonical_ZERO.
Qed.

(** ** Square-and-multiply computes [mpow]; the group of units has order [P^4 - 1] *)

Ltac ext_monoid :=
  first [ exact ext_canonical_ONE | exact ext_canonical_mul | exact ext_mul_comm
        | exact ext_mul_assoc | exact ext_mul_ONE_l | assumption ].

Abbreviation ext_mpow := (mpow ExtElem_mul ExtElem_ONE).

Lemma ext_mpow_add (x : ExtElem) (a b : nat) : ext_canonical x ->
  ext_mpow x (a + b) = ExtElem_mul (ext_mpow x a) (ext_mpow x b).
Proof. intros; apply mpow_add with (C := ext_canonical); ext_monoid. Qed.

Lemma ext_mpow_sq (x : ExtElem) (k : nat) : ext_canonical x ->
  ext_mpow (ExtElem_mul x x) k = ext_mpow x (k + k).
Proof. intros; apply mpow_sq with (C := ext_canonical); ext_monoid. Qed.

Lemma ext_mpow_one (x : ExtElem) : ext_canonical x -> ext_mpow x 1 = x.
Proof. intros; apply mpow_one with (C := ext_canonical); ext_monoid. Qed.

Lemma ext_canonical_mpow (x : ExtElem) (n : nat) : ext_canonical (ext_mpow x n).
Proof. apply C_mpow; ext_monoid. Qed.

Lemma ext_mul_ONE_r (a : ExtElem) : ext_canonical a -> ExtElem_mul a ExtElem_ONE = a.
Proof. intros; rewrite ext_mul_comm by ext_monoid; apply ext_mul_ONE_l; auto. Qed.

Lemma ext_pow_loop_mpow (p : positive) : forall tot x,
  ext_canonical tot -> ext_canonical x ->
  ExtElem_pow_loop p tot x = ExtElem_mul tot (ext_mpow x (Pos.to_nat p)).
Proof.
  induction p as [p IH|p IH|]; intros tot x Ht Hx; cbn [ExtElem_pow_loop].
  - rewrite IH by apply ext_canonical_mul.
    rewrite ext_mpow_sq, Pos2Nat.inj_xI by exact Hx; cbn [mpow].
    replace (2 * Pos.to_nat p)%nat with (Pos.to_nat p + Pos.to_nat p)%nat by lia.
    symmetry; apply ext_mul_assoc; auto using ext_canonical_mpow.
  - rewrite IH by (auto; apply ext_canonical_mul).
    rewrite ext_mpow_sq, Pos2Nat.inj_xO by exact Hx.
    replace (2 * Pos.to_nat p)%nat with (Pos.to_nat p + Pos.to_nat p)%nat by lia.
    reflexivity.
  - rewrite Pos2Nat.inj_1, ext_mpow_one by exact Hx; reflexivity.
Qed.

Lemma ExtElem_from_u32'_1 : ExtElem_from_u32' 1 = ExtElem_ONE.
Proof. vm_compute; reflexivity. Qed.

Lemma ext_pow_mpow (x : ExtElem) (n : N) : ext_canonical x ->
  ExtElem_pow x n = ext_mpow x (N.to_nat n).
Proof.
  intros Hx; destruct n as [|p]; cbn [ExtElem_pow N.to_nat].
  - exact ExtElem_from_u32'_1.
  - rewrite ext_pow_loop_mpow, ExtElem_from_u32'_1 by auto using ext_canonical_from_u32'.
    apply ext_mul_ONE_l, ext_canonical_mpow.
Qed.

Lemma ext_mul_nonzero (x y : ExtElem) : ext_canonical x -> ext_canonical y ->
  x <> ExtElem_ZERO -> y <> ExtElem_ZERO -> ExtElem_mul x y <> ExtElem_ZERO.
Proof.
  intros Hx Hy Nx Ny E; apply Ny.
  rewrite <- (ext_mul_ONE_l y), <- (ext_inv_mul_one_core x), <- ext_mul_assoc, E
    by auto using ext_canonical_inv.
  apply ext_mul_ZERO_r, ext_canonical_inv.
Qed.

Lemma ext_mpow_group_order (x : ExtElem) : ext_canonical x -> x <> ExtElem_ZERO ->
  ext_mpow x (length nonzero_ext_elems) = ExtElem_ONE.
Proof.
  intros Hx Nx.
  apply (mpow_length_units ExtElem ext_canonical ExtElem_mul ExtElem_ONE
           ext_canonical_ONE ext_canonical_mul ext_mul_comm ext_mul_assoc ext_mul_ONE_l).
  - apply NoDup_nonzero_ext_elems.
  - intros y Hy; apply (proj1 (in_nonzero_ext_elems y)) in Hy as [Hy Ny].
    split; [exact Hy|]; exists (ExtElem_inv y); split; [apply ext_canonical_inv|].
    apply ext_inv_mul_one_core; auto.
  - apply (proj2 (in_nonzero_ext_elems x)); auto.
  - intros y Hy; apply (proj1 (in_nonzero_ext_elems y)) in Hy as [Hy Ny].
    apply (proj2 (in_nonzero_ext_elems _)); split; [apply ext_canonical_mul|].
    apply ext_mul_nonzero; auto.
Qed.

Lemma inv_exponent_length :
  (N.to_nat (Z.to_N (P ^ 4 - 2)) + 1)%nat = length nonzero_ext_elems.
Proof.
  rewrite length_nonzero_ext_elems.
  assert (HP : Z.of_nat (Z.to_nat P) = P) by (apply Z2Nat.id; pose proof P_pos; lia).
  assert (H4 : 16 <= P ^ 4) by (rewrite P_eq; lia).
  assert (HN : Z.of_N (Z.to_N (P ^ 4 - 2)) = P ^ 4 - 2) by (apply Z2N.id; lia).
  assert (HQ : Z.of_nat (Z.to_nat P * Z.to_nat P * (Z.to_nat P * Z.to_nat P)) = P ^ 4)
    by (rewrite !Nat2Z.inj_mul, HP; ring).
  generalize dependent (Z.to_nat P * Z.to_nat P * (Z.to_nat P * Z.to_nat P))%nat.
  generalize dependent (Z.to_N (P ^ 4 - 2)).
  generalize dependent (P ^ 4); intros P4 H4 n HN Q HQ.
  lia.
Qed.

Lemma of_Z_P_2 : Zmod.of_Z P 2 = Zmod.add Zmod.one Zmod.one.
Proof. rewrite <- Zmod.of_Z_1, <- Zmod.of_Z_add; reflexivity. Qed.

Lemma ExtElem_inv_ZERO : ExtElem_inv ExtElem_ZERO = ExtElem_ZERO.
Proof. vm_compute; reflexivity. Qed.

(** * Claims *)

(** C1: for canonical [a], [b], the field operations [a + b], [a - b] and
    [a * b] return the canonical representative of [(a + b) mod P],
    [(a - b) mod P] and [(a * b) mod P], the same values as the 64-bit
    computations [Elem::from(a + b)], [Elem::from(a + (P_U64 - b))] and
    [Elem::from(a * b)] of the [compare_native] test. *)
Theorem base_ops_match_modular (a b : Elem) :
  canonical a -> canonical b ->
  val (Elem_add a b) = (val a + val b) mod P /\
  val (Elem_sub a b) = (val a - val b) mod P /\
  val (Elem_mul a b) = (val a * val b) mod P /\
  Elem_add a b = Elem_from_u64 (u64_wrap (val a + val b)) /\
  Elem_sub a b = Elem_from_u64 (u64_wrap (val a + u64_wrap (P_U64 - val b))) /\
  Elem_mul a b = Elem_from_u64 (u64_wrap (val a * val b)).
Proof.
  intros Ha Hb; pose proof Ha as Ha'; pose proof Hb as Hb'.
  unfold canonical in Ha', Hb'; rewrite P_eq in Ha', Hb'.
  assert (E1 : val (Elem_add a b) = (val a + val b) mod P) by (apply val_add; auto).
  assert (E2 : val (Elem_sub a b) = (val a - val b) mod P) by (apply val_sub; auto).
  assert (E3 : val (Elem_mul a b) = (val a * val b) mod P) by (apply val_mul; auto).
  split; [exact E1|]; split; [exact E2|]; split; [exact E3|].
  split; [|split]; apply canonical_eq; unfold Elem_from_u64, u64_wrap, u32_wrap, P_U64;
    cbn [val]; rewrite ?E1, ?E2, ?E3; rewrite ?P_eq.
  - rewrite (Z.mod_small (val a + val b) (2 ^ 64)) by lia.
    rewrite (Z.mod_small (_ mod 2013265921)); [reflexivity|].
    pose proof (Z.mod_pos_bound (val a + val b) 2013265921); lia.
  - rewrite (Z.mod_small (2013265921 - val b) (2 ^ 64)) by lia.
    rewrite (Z.mod_small (val a + _) (2 ^ 64)) by lia.
    rewrite (Z.mod_small (_ mod 2013265921)).
    2:{ pose proof (Z.mod_pos_bound (val a + (2013265921 - val b)) 2013265921); lia. }
    replace (val a + (2013265921 - val b)) with (val a - val b + 1 * 2013265921) by lia.
    rewrite Z.mod_add by lia; reflexivity.
  - rewrite (Z.mod_small (val a * val b) (2 ^ 64)) by nia.
    rewrite (Z.mod_small (_ mod 2013265921)); [reflexivity|].
    pose proof (Z.mod_pos_bound (val a * val b) 2013265921); lia.
Qed.

Lemma base_ops_match_modular_witness :
  canonical (mk_Elem 2013265900) /\ canonical (mk_Elem 77) /\
  val (Elem_add (mk_Elem 2013265900) (mk_Elem 77)) = (2013265900 + 77) mod P /\
  val (Elem_sub (mk_Elem 77) (mk_Elem 2013265900)) = (77 - 2013265900) mod P.
Proof.
  assert (Ha : canonical (mk_Elem 2013265900)) by (unfold canonical; cbn; P_arith).
  assert (Hb : canonical (mk_Elem 77)) by (unfold canonical; cbn; P_arith).
  split; [exact Ha|]; split; [exact Hb|]; split.
  - exact (proj1 (base_ops_match_modular _ _ Ha Hb)).
  - exact (proj1 (proj2 (base_ops_match_modular _ _ Hb Ha))).
Defined.

(** C5: base-field inversion is [pow(a, P - 2)] for every [a]; for a
    canonical nonzero [a], [inv(a) * a == 1] and [pow(a, P - 1) == 1]. *)
Theorem base_inv_fermat (a : Elem) :
  Elem_inv a = Elem_pow a (Z.to_N (P - 2)) /\
  (canonical a -> val a <> 0 ->
   Elem_mul (Elem_inv a) a = Elem_ONE /\ Elem_pow a (Z.to_N (P - 1)) = Elem_ONE).
Proof.
  split; [reflexivity|].
  intros Ha Hnz; split; [apply inv_mul_cancel | apply Elem_pow_Fermat]; auto.
Qed.

Lemma base_inv_fermat_witness :
  Elem_mul (Elem_inv (mk_Elem 5)) (mk_Elem 5) = Elem_ONE.
Proof.
  apply (base_inv_fermat (mk_Elem 5)); [unfold canonical; cbn; P_arith | cbn; lia].
Defined.

(** C6: for [i] in [0..=27], [ROU_FWD[i] * ROU_REV[i] == 1],
    [ROU_FWD[i]^(2^i) == 1] and, for [i >= 1], [ROU_FWD[i]^(2^(i-1)) != 1];
    both tables have [MAX_ROU_PO2 + 1 = 28] entries. *)
Theorem roots_of_unity_tables (i : nat) :
  (i <= MAX_ROU_PO2)%nat ->
  length ROU_FWD = S MAX_ROU_PO2 /\ length ROU_REV = S MAX_ROU_PO2 /\
  Elem_mul (nth i ROU_FWD Elem_ZERO) (nth i ROU_REV Elem_ZERO) = Elem_ONE /\
  Elem_pow (nth i ROU_FWD Elem_ZERO) (N.pow 2 (N.of_nat i)) = Elem_ONE /\
  (forall j, i = S j ->
   Elem_pow (nth i ROU_FWD Elem_ZERO) (N.pow 2 (N.of_nat j)) <> Elem_ONE).
Proof.
  intros Hi.
  assert (Hok : rou_ok i = true).
  { pose proof rou_ok_all as H; rewrite forallb_forall in H; apply H.
    apply in_seq; unfold MAX_ROU_PO2 in Hi; lia. }
  unfold rou_ok in Hok; cbv zeta in Hok.
  apply andb_prop in Hok as [Hok H3]; apply andb_prop in Hok as [H1 H2].
  split; [reflexivity|]; split; [reflexivity|].
  split; [apply canonical_eq; apply Z.eqb_eq; exact H1|].
  split; [apply canonical_eq; apply Z.eqb_eq; exact H2|].
  intros j -> E; rewrite E in H3; rewrite Z.eqb_refl in H3; discriminate.
Qed.

Lemma roots_of_unity_tables_witness :
  Elem_mul (nth 27 ROU_FWD Elem_ZERO) (nth 27 ROU_REV Elem_ZERO) = Elem_ONE.
Proof. apply (roots_of_unity_tables 27); unfold MAX_ROU_PO2; lia. Defined.

(** C7: [v |-> [v, 0, 0, 0]] preserves [+], [*], [0] and [1];
    [ExtElem::from(5) * ExtElem::from(5) == ExtElem::from(25)]. *)
Theorem embedding_ring_hom (a b : Elem) :
  ExtElem_add (ExtElem_from a) (ExtElem_from b) = ExtElem_from (Elem_add a b) /\
  ExtElem_mul (ExtElem_from a) (ExtElem_from b) = ExtElem_from (Elem_mul a b) /\
  ExtElem_from Elem_ZERO = ExtElem_ZERO /\
  ExtElem_from Elem_ONE = ExtElem_ONE /\
  ExtElem_from_u32' 0 = ExtElem_ZERO /\
  ExtElem_from_u32' 1 = ExtElem_ONE /\
  ExtElem_mul (ExtElem_from_u32' 5) (ExtElem_from_u32' 5) = ExtElem_from_u32' 25.
Proof.
  split; [reflexivity|].
  split; [|split; [reflexivity|split; [reflexivity|]]].
  2:{ split; [reflexivity|split; [reflexivity|]]. vm_compute; reflexivity. }
  unfold ExtElem_mul, ExtElem_from; cbn [e0 e1 e2 e3].
  f_equal; apply canonical_eq; cbn [val Elem_add Elem_mul Elem_ZERO Elem_new].
  - rewrite !mul_zero_l, !mul_zero_r.
    apply add_zero_r, mul_range.
  - rewrite !mul_zero_l, !mul_zero_r; reflexivity.
  - rewrite !mul_zero_l, !mul_zero_r; reflexivity.
  - rewrite !mul_zero_l, !mul_zero_r; reflexivity.
Qed.

(** C8: [inv(ZERO) == ZERO] in both fields, and the [c] of the extension
    inversion vanishes only when the (canonical) input is [ZERO]. *)
Theorem inv_zero_is_zero :
  Elem_inv Elem_ZERO = Elem_ZERO /\
  ExtElem_inv ExtElem_ZERO = ExtElem_ZERO /\
  val (inv_c ExtElem_ZERO) = 0 /\
  (forall a, ext_canonical a -> val (inv_c a) = 0 -> a = ExtElem_ZERO).
Proof.
  split; [vm_compute; reflexivity|].
  split; [vm_compute; reflexivity|].
  split; [vm_compute; reflexivity|].
  exact inv_c_zero.
Qed.

Lemma inv_zero_is_zero_witness :
  ext_canonical ExtElem_ONE /\ val (inv_c ExtElem_ONE) <> 0.
Proof.
  assert (H : ext_canonical ExtElem_ONE)
    by (repeat split; unfold canonical; cbn; P_arith).
  split; [exact H|].
  intros E; pose proof (proj2 (proj2 (proj2 inv_zero_is_zero)) _ H E) as F.
  vm_compute in F; discriminate.
Defined.

(** C3 (as stated, refuted): the product is not the reduction modulo
    [x^4 - 11]; for [x * x^3] the code returns [P - 11], the spec's reading [11]. *)
Lemma ext_mul_not_mod_x4_minus_11 :
  map val (coeffs (ExtElem_mul (mk_ExtElem Elem_ZERO Elem_ONE Elem_ZERO Elem_ZERO)
                               (mk_ExtElem Elem_ZERO Elem_ZERO Elem_ZERO Elem_ONE)))
  <> spec_ext_mul 11 (mk_ExtElem Elem_ZERO Elem_ONE Elem_ZERO Elem_ZERO)
                     (mk_ExtElem Elem_ZERO Elem_ZERO Elem_ZERO Elem_ONE).
Proof. vm_compute; discriminate. Qed.

(** C3 (amended): the full multiply returns the stated coefficients with
    [c = NBETA = -11 mod P], and they are polynomial multiplication followed
    by reduction modulo [x^4 + 11] (that is [x^4 = -11]), for canonical inputs. *)
Theorem ext_mul_mod_x4_plus_11 (a b : ExtElem) :
  ext_canonical a -> ext_canonical b ->
  val NBETA = (-11) mod P /\
  ExtElem_mul a b =
    mk_ExtElem
      (Elem_add (Elem_mul (e0 a) (e0 b)) (Elem_mul NBETA
         (Elem_add (Elem_add (Elem_mul (e1 a) (e3 b)) (Elem_mul (e2 a) (e2 b)))
                   (Elem_mul (e3 a) (e1 b)))))
      (Elem_add (Elem_add (Elem_mul (e0 a) (e1 b)) (Elem_mul (e1 a) (e0 b)))
         (Elem_mul NBETA (Elem_add (Elem_mul (e2 a) (e3 b)) (Elem_mul (e3 a) (e2 b)))))
      (Elem_add (Elem_add (Elem_add (Elem_mul (e0 a) (e2 b)) (Elem_mul (e1 a) (e1 b)))
                          (Elem_mul (e2 a) (e0 b)))
         (Elem_mul NBETA (Elem_mul (e3 a) (e3 b))))
      (Elem_add (Elem_add (Elem_add (Elem_mul (e0 a) (e3 b)) (Elem_mul (e1 a) (e2 b)))
                          (Elem_mul (e2 a) (e1 b)))
         (Elem_mul (e3 a) (e0 b))) /\
  map val (coeffs (ExtElem_mul a b)) = spec_ext_mul (-11) a b.
Proof.
  destruct a as [a0 a1 a2 a3], b as [b0 b1 b2 b3].
  intros (Ha0 & Ha1 & Ha2 & Ha3) (Hb0 & Hb1 & Hb2 & Hb3); cbn [e0 e1 e2 e3] in *.
  split; [unfold NBETA, Elem_new; cbn [val]; rewrite P_eq; reflexivity|].
  split; [reflexivity|].
  unfold spec_ext_mul, coeffs, ExtElem_mul; cbn [e0 e1 e2 e3 map poly_mul poly_add length].
  cbn [reduce_quartic length Nat.leb firstn skipn map poly_add].
  f_equal; [|f_equal; [|f_equal; [|f_equal]]];
    apply val_eq_mod; auto with canon;
    F_push; rewrite ?to_F_NBETA_Z; unfold to_F;
    repeat first [rewrite Zmod.of_Z_add | rewrite Zmod.of_Z_mul];
    rewrite ?Zmod.of_Z_0; ring.
Qed.

Lemma ext_mul_mod_x4_plus_11_witness :
  map val (coeffs (ExtElem_mul (ExtElem_from_u32 3) (ExtElem_from_u32 7)))
  = spec_ext_mul (-11) (ExtElem_from_u32 3) (ExtElem_from_u32 7).
Proof.
  apply (ext_mul_mod_x4_plus_11 (ExtElem_from_u32 3) (ExtElem_from_u32 7));
    repeat split; unfold canonical; cbn; P_arith.
Defined.

(** C4: every [BaseElem] an operation produces is in [[0, P)]: construction
    from [u32] or [u64], [add], [sub], [mul], [neg], [pow], [inv] and
    [random] (from canonical operands); likewise every coefficient of every
    [ExtElem] the extension operations produce. *)
Theorem operations_stay_canonical (a b : Elem) (u v : ExtElem) (x : Z) (n : N)
    (rng : list Z) :
  canonical a -> canonical b -> ext_canonical u -> ext_canonical v ->
  canonical (Elem_new x) /\ canonical (Elem_from_u32 x) /\
  canonical (Elem_from_u64 x) /\ canonical Elem_ZERO /\ canonical Elem_ONE /\
  canonical (Elem_add a b) /\ canonical (Elem_sub a b) /\
  canonical (Elem_mul a b) /\ canonical (Elem_neg a) /\
  canonical (Elem_pow a n) /\ canonical (Elem_inv a) /\
  (forall e rest, Elem_random rng = Some (e, rest) -> canonical e) /\
  ext_canonical (ExtElem_from_u32 x) /\ ext_canonical (ExtElem_from_u32' x) /\
  ext_canonical (ExtElem_from a) /\
  ext_canonical ExtElem_ZERO /\ ext_canonical ExtElem_ONE /\
  ext_canonical (ExtElem_add u v) /\ ext_canonical (ExtElem_sub u v) /\
  ext_canonical (ExtElem_neg u) /\ ext_canonical (ExtElem_mul u v) /\
  ext_canonical (ExtElem_scale u a) /\ ext_canonical (ExtElem_pow u n) /\
  ext_canonical (ExtElem_inv u) /\
  (forall e rest, ExtElem_random rng = Some (e, rest) -> ext_canonical e).
Proof.
  intros Ha Hb (Hu0 & Hu1 & Hu2 & Hu3) (Hv0 & Hv1 & Hv2 & Hv3).
  assert (Z0 : canonical Elem_ZERO) by apply canonical_new.
  split; [apply canonical_new|]. split; [apply canonical_from_u32|].
  split; [apply canonical_from_u64|]. split; [exact Z0|].
  split; [apply canonical_new|].
  split; [auto with canon|]. split; [auto with canon|].
  split; [auto with canon|]. split; [auto with canon|].
  split; [auto with canon|]. split; [auto with canon|].
  split; [apply canonical_random|].
  split; [unfold ExtElem_from_u32; ext_canon|].
  split; [apply ext_canonical_from_u32'|].
  split; [unfold ExtElem_from; ext_canon|].
  split; [unfold ExtElem_ZERO, ExtElem_from_u32; ext_canon|].
  split; [unfold ExtElem_ONE, ExtElem_from_u32; ext_canon|].
  split; [unfold ExtElem_add; ext_canon|].
  split; [unfold ExtElem_sub; ext_canon|].
  split; [unfold ExtElem_neg, ExtElem_sub, ExtElem_ZERO, ExtElem_from_u32; ext_canon|].
  split; [apply ext_canonical_mul|].
  split; [unfold ExtElem_scale; ext_canon|].
  split; [apply ext_canonical_pow|].
  split; [apply ext_canonical_inv|].
  apply ext_canonical_random.
Qed.

Lemma operations_stay_canonical_witness :
  canonical (Elem_sub (mk_Elem 3) (mk_Elem 5)) /\
  ext_canonical (ExtElem_add (ExtElem_from_u32 3) (ExtElem_from_u32 (P - 1))).
Proof.
  assert (H3 : canonical (mk_Elem 3)) by (unfold canonical; cbn; P_arith).
  assert (H5 : canonical (mk_Elem 5)) by (unfold canonical; cbn; P_arith).
  assert (U : ext_canonical (ExtElem_from_u32 3))
    by (repeat split; unfold canonical; cbn; P_arith).
  assert (V : ext_canonical (ExtElem_from_u32 (P - 1)))
    by (repeat split; unfold canonical; cbn; P_arith).
  pose proof (operations_stay_canonical (mk_Elem 3) (mk_Elem 5)
                (ExtElem_from_u32 3) (ExtElem_from_u32 (P - 1)) 0 0 [] H3 H5 U V) as H.
  split; [exact (proj1 (proj2 (proj2 (proj2 (proj2 (proj2 (proj2 H)))))))|].
  exact (proj1 (proj2 (proj2 (proj2 (proj2 (proj2 (proj2 (proj2 (proj2 (proj2 (proj2
          (proj2 (proj2 (proj2 (proj2 (proj2 (proj2 (proj2 H)))))))))))))))))).
Defined.

(** C9 (as stated, refuted): the call also panics when the advanced cursor
    only reaches the capacity.  A 3-word region holding the header [8] and
    two payload words: the cursor would advance to [3], which does not exceed
    [len_words = 3], yet the [assert!] fails. *)
Lemma sendrecv_panics_on_exact_fit :
  host_sendrecv (mk_Region 3 (fun i => if i =? 0 then 8 else 0)) 0 0 [] = Panicked /\
  0 + 1 + (8 + WORD_SIZE - 1) / WORD_SIZE <= 3.
Proof. split; [vm_compute; reflexivity | cbn; lia]. Qed.

(** C9 (amended): when the header [nbytes] at the cursor [rp] is such that
    [nbytes + WORD_SIZE] does not overflow a [usize] and the advanced cursor
    fits a [usize], the call returns [ceil(nbytes / WORD_SIZE)] words read
    right after the header, the unchanged [nbytes] and the cursor advanced by
    [1 + ceil(nbytes / WORD_SIZE)] when that cursor is strictly below
    [INPUT.len_words()], and panics otherwise (the cursor reaching or
    exceeding the capacity). *)
Theorem host_sendrecv_reads_header_and_payload (INPUT : Region) (rp channel : Z)
    (buf : list Z) :
  0 <= rp ->
  0 <= word_at INPUT rp ->
  word_at INPUT rp + WORD_SIZE < 2 ^ 32 ->
  rp + 1 + (word_at INPUT rp + WORD_SIZE - 1) / WORD_SIZE < 2 ^ 32 ->
  let nwords := (word_at INPUT rp + WORD_SIZE - 1) / WORD_SIZE in
  match host_sendrecv INPUT rp channel buf with
  | Returned data nbytes rp' =>
    length data = Z.to_nat nwords /\
    data = map (word_at INPUT) (zseq (rp + 1) nwords) /\
    nbytes = word_at INPUT rp /\
    rp' = rp + 1 + nwords /\
    rp + 1 + nwords < len_words INPUT
  | Panicked => len_words INPUT <= rp + 1 + nwords
  end.
Proof.
  intros Hrp Hn Hov Hfit nwords.
  assert (Nw : 0 <= nwords) by (unfold nwords, WORD_SIZE in *; apply Z.div_pos; lia).
  unfold host_sendrecv; cbv zeta.
  rewrite (usize_wrap_small (rp + 1)) by lia.
  rewrite (usize_wrap_small (word_at INPUT rp + WORD_SIZE))
    by (unfold WORD_SIZE in *; lia).
  rewrite (usize_wrap_small (word_at INPUT rp + WORD_SIZE - 1))
    by (unfold WORD_SIZE in *; lia).
  fold nwords.
  rewrite (usize_wrap_small (rp + 1 + nwords)) by lia.
  destruct (rp + 1 + nwords <? len_words INPUT) eqn:E.
  - apply Z.ltb_lt in E.
    split; [rewrite length_map; apply length_zseq|].
    repeat split; auto.
  - apply Z.ltb_ge in E; exact E.
Qed.

Lemma host_sendrecv_reads_header_and_payload_witness :
  host_sendrecv (mk_Region 4 (fun i => if i =? 0 then 8 else 0)) 0 0 [] =
  Returned [0; 0] 8 3.
Proof.
  pose proof (host_sendrecv_reads_header_and_payload
                (mk_Region 4 (fun i => if i =? 0 then 8 else 0)) 0 0 []) as H.
  cbn [word_at] in H; rewrite Z.eqb_refl in H.
  specialize (H ltac:(lia) ltac:(lia) ltac:(vm_compute; reflexivity)
                ltac:(vm_compute; reflexivity)).
  vm_compute in H |- *; reflexivity.
Defined.

(** C10: every call that returns leaves [READ_PTR] in [[0, INPUT.len_words())];
    so, from [READ_PTR = 0] over a non-empty [INPUT], the cursor at the start
    of every call, where the header is read without a check, lies inside the
    region. *)
Theorem read_ptr_stays_in_input :
  (forall INPUT rp channel buf data nbytes rp',
     host_sendrecv INPUT rp channel buf = Returned data nbytes rp' ->
     0 <= rp' < len_words INPUT) /\
  (forall len rp, read_ptr_reachable len rp -> 0 < len -> 0 <= rp < len).
Proof.
  split; [exact host_sendrecv_returned_bound|].
  intros len rp R Hlen; destruct R as [|rp rp' words channel buf data nbytes _ E];
    [lia|].
  exact (host_sendrecv_returned_bound _ _ _ _ _ _ _ E).
Qed.

Lemma read_ptr_stays_in_input_witness : 0 <= 2 < 5.
Proof.
  apply (proj2 read_ptr_stays_in_input 5 2); [|lia].
  apply (reach_step 5 0 2 (fun i => if i =? 0 then 4 else 7) 0 [] [7] 4);
    [apply reach_init | vm_compute; reflexivity].
Defined.

(** C2: for an [ExtElem] [x] with canonical coefficients, [inv] computes
    [b0 = a0^2 + beta (2 a1 a3 - a2^2)], [b2 = 2 a0 a2 - a1^2 + beta a3^2] and
    [c = b0^2 + beta b2^2] with [beta = 11]; for [x] nonzero
    [inv(x) * x == ONE]; and the result is [x^(P^4 - 2)], with the power
    taken by the square-and-multiply loop of [pow] (here over an unbounded
    exponent, [P^4 - 2] exceeding a [usize]). *)
Theorem ext_inv_is_inverse (x : ExtElem) :
  ext_canonical x ->
  val (inv_b0 x) =
    (val (e0 x) * val (e0 x) +
     11 * (2 * val (e1 x) * val (e3 x) - val (e2 x) * val (e2 x))) mod P /\
  val (inv_b2 x) =
    (2 * val (e0 x) * val (e2 x) - val (e1 x) * val (e1 x) +
     11 * (val (e3 x) * val (e3 x))) mod P /\
  val (inv_c x) =
    (val (inv_b0 x) * val (inv_b0 x) + 11 * (val (inv_b2 x) * val (inv_b2 x))) mod P /\
  (x <> ExtElem_ZERO -> ExtElem_mul (ExtElem_inv x) x = ExtElem_ONE) /\
  ExtElem_inv x = ExtElem_pow x (Z.to_N (P ^ 4 - 2)).
Proof.
  intros Hx; pose proof Hx as (H0 & H1 & H2 & H3).
  pose proof (canonical_inv_b0 x) as Hb0; pose proof (canonical_inv_b2 x) as Hb2.
  split; [|split; [|split; [|split]]].
  - apply val_eq_mod; [apply canonical_inv_b0|].
    unfold inv_b0; F_push; rewrite to_F_BETA; unfold to_F.
    repeat first [rewrite Zmod.of_Z_add | rewrite Zmod.of_Z_mul | rewrite Zmod.of_Z_sub].
    rewrite of_Z_P_2; ring.
  - apply val_eq_mod; [apply canonical_inv_b2|].
    unfold inv_b2; F_push; rewrite to_F_BETA; unfold to_F.
    repeat first [rewrite Zmod.of_Z_add | rewrite Zmod.of_Z_mul | rewrite Zmod.of_Z_sub].
    rewrite of_Z_P_2; ring.
  - apply val_eq_mod; [apply canonical_inv_c|].
    unfold inv_c; cbv zeta; F_push; rewrite to_F_BETA; unfold to_F.
    repeat first [rewrite Zmod.of_Z_add | rewrite Zmod.of_Z_mul | rewrite Zmod.of_Z_sub].
    ring.
  - apply ext_inv_mul_one_core; exact Hx.
  - rewrite ext_pow_mpow by exact Hx.
    pose proof inv_exponent_length as HL.
    destruct (ext_eqb x ExtElem_ZERO) eqn:Ez.
    + apply ext_eqb_spec in Ez; subst x; rewrite ExtElem_inv_ZERO.
      destruct (N.to_nat (Z.to_N (P ^ 4 - 2))) as [|k] eqn:En; cbn [mpow].
      * exfalso; apply (f_equal Z.of_nat) in En.
        assert (H4 : 16 <= P ^ 4) by (rewrite P_eq; lia).
        rewrite N_nat_Z, Z2N.id in En by lia.
        generalize dependent (P ^ 4); intros; cbn [Z.of_nat] in En; lia.
      * rewrite ext_mul_comm by (auto using ext_canonical_ZERO, ext_canonical_mpow).
        symmetry; apply ext_mul_ZERO_r, ext_canonical_mpow.
    + assert (Nx : x <> ExtElem_ZERO)
        by (intros E; rewrite (proj2 (ext_eqb_spec _ _) E) in Ez; discriminate).
      pose proof (ext_mpow_group_order x Hx Nx) as G.
      rewrite <- HL, ext_mpow_add, ext_mpow_one in G by exact Hx.
      set (w := ext_mpow x (N.to_nat (Z.to_N (P ^ 4 - 2)))) in *.
      assert (Hw : ext_canonical w) by apply ext_canonical_mpow.
      assert (Hi : ext_canonical (ExtElem_inv x)) by apply ext_canonical_inv.
      rewrite <- (ext_mul_ONE_r (ExtElem_inv x)) by exact Hi.
      rewrite <- G, (ext_mul_comm w x), ext_mul_assoc, ext_inv_mul_one_core by auto.
      apply ext_mul_ONE_l; exact Hw.
Qed.

Lemma ext_inv_is_inverse_witness :
  ExtElem_mul (ExtElem_inv (ExtElem_from_u32 3)) (ExtElem_from_u32 3) = ExtElem_ONE.
Proof.
  assert (H : ext_canonical (ExtElem_from_u32 3))
    by (unfold ExtElem_from_u32; ext_canon).
  pose proof (ext_inv_is_inverse (ExtElem_from_u32 3) H) as (_ & _ & _ & K & _).
  apply K; intros E; vm_compute in E; discriminate.
Defined.

(** * Further properties of the code *)

(** ** Helpers *)

Lemma canonical_ZERO : canonical Elem_ZERO.
Proof. apply canonical_new. Qed.

Lemma canonical_ONE : canonical Elem_ONE.
Proof. apply canonical_new. Qed.

#[export] Hint Resolve canonical_ZERO canonical_ONE : canon.

Lemma to_F_ZERO : to_F Elem_ZERO = Zmod.zero.
Proof. unfold Elem_ZERO; rewrite to_F_new; apply Zmod.of_Z_0. Qed.

Lemma to_F_ONE : to_F Elem_ONE = Zmod.one.
Proof. unfold Elem_ONE; rewrite to_F_new; apply Zmod.of_Z_1. Qed.

Ltac elem_ring :=
  apply to_F_inj; [auto with canon | auto with canon |];
  F_push; rewrite ?to_F_ZERO, ?to_F_ONE; ring.

Create HintDb ext.

Lemma ext_canonical_add (u v : ExtElem) :
  ext_canonical u -> ext_canonical v -> ext_canonical (ExtElem_add u v).
Proof. intros (? & ? & ? & ?) (? & ? & ? & ?); unfold ExtElem_add; ext_canon. Qed.

Lemma ext_canonical_sub (u v : ExtElem) :
  ext_canonical u -> ext_canonical v -> ext_canonical (ExtElem_sub u v).
Proof. intros (? & ? & ? & ?) (? & ? & ? & ?); unfold ExtElem_sub; ext_canon. Qed.

Lemma ext_canonical_neg (u : ExtElem) : ext_canonical u -> ext_canonical (ExtElem_neg u).
Proof. intros; apply ext_canonical_sub; auto using ext_canonical_ZERO. Qed.

Lemma ext_canonical_scale (u : ExtElem) (r : Elem) : ext_canonical (ExtElem_scale u r).
Proof. unfold ExtElem_scale; ext_canon. Qed.

Lemma ext_canonical_from (r : Elem) : canonical r -> ext_canonical (ExtElem_from r).
Proof. intros; unfold ExtElem_from; ext_canon. Qed.

#[export] Hint Resolve ext_canonical_add ext_canonical_sub ext_canonical_neg
  ext_canonical_mul ext_canonical_scale ext_canonical_from ext_canonical_ONE
  ext_canonical_ZERO ext_canonical_pow : ext.

Ltac ext_field_eq :=
  apply ext_eq_of_to_F; [auto with ext | auto with ext | ..];
  unfold ExtElem_neg, Elem_mul_ExtElem, ExtElem_add, ExtElem_sub, ExtElem_mul, ExtElem_scale,
    ExtElem_from, ExtElem_ONE, ExtElem_ZERO, ExtElem_from_u32;
  cbn [e0 e1 e2 e3];
  F_push; rewrite ?to_F_new, ?to_F_ZERO, ?Zmod.of_Z_1, ?Zmod.of_Z_0; ring.

Section MonoidPow.
Variable A : Type.
Variable C : A -> Prop.
Variable op : A -> A -> A.
Variable e : A.
Hypothesis C_e : C e.
Hypothesis C_op : forall x y, C (op x y).
Hypothesis op_comm : forall x y, C x -> C y -> op x y = op y x.
Hypothesis op_assoc :
  forall x y z, C x -> C y -> C z -> op x (op y z) = op (op x y) z.
Hypothesis op_e : forall x, C x -> op e x = x.

Lemma mpow_mul (x : A) (a b : nat) : C x ->
  mpow op e x (a * b) = mpow op e (mpow op e x a) b.
Proof.
  intros Hx; induction b as [|b IH].
  - rewrite Nat.mul_0_r; reflexivity.
  - rewrite Nat.mul_succ_r, (mpow_add A C op e) by auto.
    cbn [mpow]; rewrite IH; apply op_comm; apply (C_mpow A C op e); auto.
Qed.

Lemma mpow_op (x y : A) (n : nat) : C x -> C y ->
  mpow op e (op x y) n = op (mpow op e x n) (mpow op e y n).
Proof.
  intros Hx Hy; induction n as [|n IH]; cbn [mpow].
  - symmetry; apply op_e; exact C_e.
  - rewrite IH; apply (op_swap4 A C op); auto; apply (C_mpow A C op e); auto.
Qed.
End MonoidPow.

Lemma ext_from_mul (a b : Elem) :
  ExtElem_mul (ExtElem_from a) (ExtElem_from b) = ExtElem_from (Elem_mul a b).
Proof.
  unfold ExtElem_mul, ExtElem_from; cbn [e0 e1 e2 e3].
  f_equal; apply canonical_eq; cbn [val Elem_add Elem_mul Elem_ZERO Elem_new].
  - rewrite !mul_zero_l, !mul_zero_r.
    apply add_zero_r, mul_range.
  - rewrite !mul_zero_l, !mul_zero_r; reflexivity.
  - rewrite !mul_zero_l, !mul_zero_r; reflexivity.
  - rewrite !mul_zero_l, !mul_zero_r; reflexivity.
Qed.

Lemma ExtElem_ONE_from : ExtElem_ONE = ExtElem_from Elem_ONE.
Proof. reflexivity. Qed.

Lemma group_exponent_length :
  N.to_nat (Z.to_N (P ^ 4 - 1)) = length nonzero_ext_elems.
Proof.
  rewrite <- inv_exponent_length.
  assert (H4 : 16 <= P ^ 4) by (rewrite P_eq; lia).
  generalize dependent (P ^ 4); intros P4 H4.
  rewrite !Z_N_nat; lia.
Qed.

Lemma Elem_random_cons (v : Z) (rng : list Z) :
  Elem_random (v :: rng) =
  if v >=? REJECT_CUTOFF then Elem_random rng else Some (Elem_from_u32 v, rng).
Proof. cbn [Elem_random]; destruct rng; cbn [Elem_random_loop]; reflexivity. Qed.

Lemma REJECT_CUTOFF_eq : REJECT_CUTOFF = 2 * P.
Proof. reflexivity. Qed.

(** * Extra properties *)

(** X1: on canonical operands the base field is a commutative ring:
    [+] and [*] commute and associate, [*] distributes over [+], [ZERO] and
    [ONE] are neutral, [a + (-a) == ZERO] and [a - b == a + (-b)]. *)
Theorem Elem_ring_laws (a b c : Elem) :
  canonical a -> canonical b -> canonical c ->
  Elem_add a b = Elem_add b a /\
  Elem_add a (Elem_add b c) = Elem_add (Elem_add a b) c /\
  Elem_mul a b = Elem_mul b a /\
  Elem_mul a (Elem_mul b c) = Elem_mul (Elem_mul a b) c /\
  Elem_mul a (Elem_add b c) = Elem_add (Elem_mul a b) (Elem_mul a c) /\
  Elem_add Elem_ZERO a = a /\ Elem_mul Elem_ONE a = a /\
  Elem_add a (Elem_neg a) = Elem_ZERO /\
  Elem_sub a b = Elem_add a (Elem_neg b).
Proof.
  intros Ha Hb Hc.
  refine (conj _ (conj _ (conj _ (conj _ (conj _ (conj _ (conj _ (conj _ _))))))));
    elem_ring.
Qed.

Lemma Elem_ring_laws_witness :
  Elem_add (mk_Elem 5) (Elem_neg (mk_Elem 5)) = Elem_ZERO.
Proof.
  assert (H : canonical (mk_Elem 5)) by (unfold canonical; cbn; P_arith).
  exact (proj1 (proj2 (proj2 (proj2 (proj2 (proj2 (proj2 (proj2
           (Elem_ring_laws _ _ _ H H H))))))))).
Defined.

(** X2: on [ExtElem]s with canonical coefficients, [+] and [*] commute and
    associate, [*] distributes over [+], [ZERO] and [ONE] are neutral,
    [a + (-a) == ZERO] and [a - b == a + (-b)]: the laws the [isa_field]
    test samples. *)
Theorem ExtElem_ring_laws (a b c : ExtElem) :
  ext_canonical a -> ext_canonical b -> ext_canonical c ->
  ExtElem_add a b = ExtElem_add b a /\
  ExtElem_add a (ExtElem_add b c) = ExtElem_add (ExtElem_add a b) c /\
  ExtElem_mul a b = ExtElem_mul b a /\
  ExtElem_mul a (ExtElem_mul b c) = ExtElem_mul (ExtElem_mul a b) c /\
  ExtElem_mul a (ExtElem_add b c) = ExtElem_add (ExtElem_mul a b) (ExtElem_mul a c) /\
  ExtElem_add ExtElem_ZERO a = a /\ ExtElem_mul ExtElem_ONE a = a /\
  ExtElem_add a (ExtElem_neg a) = ExtElem_ZERO /\
  ExtElem_sub a b = ExtElem_add a (ExtElem_neg b).
Proof.
  intros Ha Hb Hc.
  pose proof Ha as (? & ? & ? & ?); pose proof Hb as (? & ? & ? & ?);
    pose proof Hc as (? & ? & ? & ?).
  refine (conj _ (conj _ (conj _ (conj _ (conj _ (conj _ (conj _ (conj _ _))))))));
    ext_field_eq.
Qed.

Lemma ExtElem_ring_laws_witness :
  ExtElem_add (ExtElem_from_u32 3) (ExtElem_neg (ExtElem_from_u32 3)) = ExtElem_ZERO.
Proof.
  assert (H : ext_canonical (ExtElem_from_u32 3)) by (unfold ExtElem_from_u32; ext_canon).
  exact (proj1 (proj2 (proj2 (proj2 (proj2 (proj2 (proj2 (proj2
           (ExtElem_ring_laws _ _ _ H H H))))))))).
Defined.

(** X3: the extension multiplication has no zero divisors: if the product
    of two [ExtElem]s with canonical coefficients is [ZERO], one of them is
    [ZERO]. *)
Theorem ExtElem_no_zero_divisors (a b : ExtElem) :
  ext_canonical a -> ext_canonical b ->
  ExtElem_mul a b = ExtElem_ZERO -> a = ExtElem_ZERO \/ b = ExtElem_ZERO.
Proof.
  intros Ha Hb E.
  destruct (ext_eqb a ExtElem_ZERO) eqn:Ea; [left; apply ext_eqb_spec; exact Ea|].
  destruct (ext_eqb b ExtElem_ZERO) eqn:Eb; [right; apply ext_eqb_spec; exact Eb|].
  exfalso; apply (ext_mul_nonzero a b Ha Hb); [| |exact E].
  - intros E'; rewrite (proj2 (ext_eqb_spec a _) E') in Ea; discriminate.
  - intros E'; rewrite (proj2 (ext_eqb_spec b _) E') in Eb; discriminate.
Qed.

Lemma ExtElem_no_zero_divisors_witness :
  ExtElem_ZERO = ExtElem_ZERO \/ ExtElem_from_u32 7 = ExtElem_ZERO.
Proof.
  apply (ExtElem_no_zero_divisors ExtElem_ZERO (ExtElem_from_u32 7)).
  - unfold ExtElem_ZERO, ExtElem_from_u32; ext_canon.
  - unfold ExtElem_from_u32; ext_canon.
  - vm_compute; reflexivity.
Defined.

(** X4: the nonzero [ExtElem]s form a group of order [P^4 - 1]: for every
    nonzero [a] with canonical coefficients, the square-and-multiply loop
    of [pow] returns [ONE] for the exponent [P^4 - 1] (taken here over an
    unbounded exponent, [P^4 - 1] exceeding a [usize]). *)
Theorem ExtElem_pow_group_order (a : ExtElem) :
  ext_canonical a -> a <> ExtElem_ZERO ->
  ExtElem_pow a (Z.to_N (P ^ 4 - 1)) = ExtElem_ONE.
Proof.
  intros Ha Na.
  rewrite ext_pow_mpow, group_exponent_length by exact Ha.
  apply ext_mpow_group_order; assumption.
Qed.

Lemma ExtElem_pow_group_order_witness :
  ExtElem_pow (ExtElem_from_u32 3) (Z.to_N (P ^ 4 - 1)) = ExtElem_ONE.
Proof.
  apply ExtElem_pow_group_order.
  - unfold ExtElem_from_u32; ext_canon.
  - intros E; vm_compute in E; discriminate.
Defined.

(** X5: [pow] composes as exponentiation does, for [ExtElem]s with canonical
    coefficients: [a^0 == ONE], [a^1 == a], [a^(m+n) == a^m * a^n],
    [a^(m*n) == (a^m)^n] and [(a*b)^n == a^n * b^n]. *)
Theorem ExtElem_pow_laws (a b : ExtElem) (m n : N) :
  ext_canonical a -> ext_canonical b ->
  ExtElem_pow a 0 = ExtElem_ONE /\ ExtElem_pow a 1 = a /\
  ExtElem_pow a (m + n) = ExtElem_mul (ExtElem_pow a m) (ExtElem_pow a n) /\
  ExtElem_pow a (m * n) = ExtElem_pow (ExtElem_pow a m) n /\
  ExtElem_pow (ExtElem_mul a b) n = ExtElem_mul (ExtElem_pow a n) (ExtElem_pow b n).
Proof.
  intros Ha Hb.
  rewrite !ext_pow_mpow
    by auto using ext_canonical_mul, ext_canonical_mpow, ext_canonical_pow.
  refine (conj _ (conj _ (conj _ (conj _ _)))).
  - reflexivity.
  - apply ext_mpow_one; exact Ha.
  - rewrite N2Nat.inj_add; apply ext_mpow_add; exact Ha.
  - rewrite N2Nat.inj_mul.
    apply (mpow_mul ExtElem ext_canonical); ext_monoid.
  - apply (mpow_op ExtElem ext_canonical); ext_monoid.
Qed.

Lemma ExtElem_pow_laws_witness :
  ExtElem_pow (ExtElem_from_u32 3) (2 + 5) =
  ExtElem_mul (ExtElem_pow (ExtElem_from_u32 3) 2) (ExtElem_pow (ExtElem_from_u32 3) 5).
Proof.
  assert (H : ext_canonical (ExtElem_from_u32 3)) by (unfold ExtElem_from_u32; ext_canon).
  exact (proj1 (proj2 (proj2 (ExtElem_pow_laws _ _ 2 5 H H)))).
Defined.

(** X6: the subfield is closed under [pow]: for a canonical [x],
    [ExtElem::from(x).pow(n)] has constant part [x^n mod P] and its other
    three coefficients zero. *)
Theorem ExtElem_pow_subfield (x : Elem) (n : N) :
  canonical x ->
  ExtElem_pow (ExtElem_from x) n = ExtElem_from (mk_Elem (val x ^ Z.of_N n mod P)).
Proof.
  intros Hx.
  rewrite ext_pow_mpow by (apply ext_canonical_from; exact Hx).
  rewrite <- (N2Nat.id n) at 2; generalize (N.to_nat n); clear n; intros n.
  rewrite nat_N_Z.
  induction n as [|n IH]; cbn [mpow].
  - rewrite ExtElem_ONE_from; reflexivity.
  - rewrite IH, ext_from_mul; f_equal; apply canonical_eq.
    rewrite val_mul by (auto; apply mod_P_range); cbn [val].
    rewrite Z.mul_mod_idemp_r by (pose proof P_pos; lia).
    rewrite Nat2Z.inj_succ, Z.pow_succ_r by lia; reflexivity.
Qed.

Lemma ExtElem_pow_subfield_witness :
  ExtElem_pow (ExtElem_from (mk_Elem 5)) 3 = ExtElem_from (mk_Elem 125).
Proof.
  assert (H : canonical (mk_Elem 5)) by (unfold canonical; cbn; P_arith).
  exact (ExtElem_pow_subfield (mk_Elem 5) 3 H).
Defined.

(** X7: multiplying an [ExtElem] by a base element, on either side
    ([ExtElem * Elem] and [Elem * ExtElem]), equals the full product with
    the embedded [ExtElem::from(r)], and two scalings compose into one
    scaling by the product: [(u * r) * s == u * (r * s)]. *)
Theorem ExtElem_scalar_mul (u : ExtElem) (r s : Elem) :
  ext_canonical u -> canonical r -> canonical s ->
  ExtElem_scale u r = ExtElem_mul u (ExtElem_from r) /\
  Elem_mul_ExtElem r u = ExtElem_mul (ExtElem_from r) u /\
  ExtElem_scale (ExtElem_scale u r) s = ExtElem_scale u (Elem_mul r s).
Proof.
  intros Hu Hr Hs; pose proof Hu as (? & ? & ? & ?); unfold Elem_mul_ExtElem.
  refine (conj _ (conj _ _)); ext_field_eq.
Qed.

Lemma ExtElem_scalar_mul_witness :
  Elem_mul_ExtElem (mk_Elem 2) (ExtElem_from_u32 3) =
  ExtElem_mul (ExtElem_from (mk_Elem 2)) (ExtElem_from_u32 3).
Proof.
  assert (Hu : ext_canonical (ExtElem_from_u32 3)) by (unfold ExtElem_from_u32; ext_canon).
  assert (Hr : canonical (mk_Elem 2)) by (unfold canonical; cbn; P_arith).
  exact (proj1 (proj2 (ExtElem_scalar_mul _ _ _ Hu Hr Hr))).
Defined.

(** X8: conversions round-trip: a canonical [e] converted to [u32] or [u64]
    and back through [Elem::from] (or [Elem::new]) is [e] again; and
    [Elem::from(x as u64)] equals [Elem::from(x)], both reducing [x] modulo
    [P] (the [as u32] cast of [From<u64>] loses nothing). *)
Theorem Elem_conversions_round_trip (e : Elem) :
  canonical e ->
  Elem_from_u32 (u32_from_Elem e) = e /\
  Elem_new (u32_from_Elem e) = e /\
  Elem_from_u64 (u64_from_Elem e) = e /\
  (forall x, Elem_from_u64 x = Elem_from_u32 x /\ val (Elem_from_u64 x) = x mod P).
Proof.
  intros He; unfold canonical in He.
  assert (U : forall x, Elem_from_u64 x = Elem_from_u32 x).
  { intros x; unfold Elem_from_u64, Elem_from_u32, u32_wrap, P_U64; f_equal.
    pose proof (mod_P_range x) as H; rewrite P_eq in *.
    apply Z.mod_small; lia. }
  refine (conj _ (conj _ (conj _ _))).
  - apply canonical_eq; cbn [val Elem_from_u32]; unfold u32_from_Elem.
    apply Z.mod_small; exact He.
  - apply canonical_eq; cbn [val Elem_new]; unfold u32_from_Elem.
    apply Z.mod_small; exact He.
  - rewrite U; apply canonical_eq; cbn [val Elem_from_u32]; unfold u64_from_Elem.
    apply Z.mod_small; exact He.
  - intros x; split; [apply U|rewrite U; reflexivity].
Qed.

Lemma Elem_conversions_round_trip_witness :
  Elem_from_u32 (u32_from_Elem (mk_Elem 2013265920)) = mk_Elem 2013265920.
Proof.
  assert (H : canonical (mk_Elem 2013265920)) by (unfold canonical; cbn; P_arith).
  exact (proj1 (Elem_conversions_round_trip _ H)).
Defined.

(** X9: the raw [add] never overflows its [u32] sum on canonical operands
    (both below [P < 2^31]), so it returns [lhs + rhs - P] or [lhs + rhs]
    without wrapping; and the [u64] product in [mul] never overflows for
    any [u32] operands, so [mul] is exactly [lhs * rhs mod P]. *)
Theorem add_mul_no_overflow (a b : Elem) (x y : Z) :
  canonical a -> canonical b -> 0 <= x < 2 ^ 32 -> 0 <= y < 2 ^ 32 ->
  0 <= val a + val b < 2 ^ 32 /\
  add (val a) (val b) =
    (if val a + val b >=? P then val a + val b - P else val a + val b) /\
  0 <= x * y < 2 ^ 64 /\
  mul x y = (x * y) mod P.
Proof.
  unfold canonical; intros Ha Hb Hx Hy.
  assert (HP : P = 2013265921) by exact P_eq.
  refine (conj _ (conj _ (conj _ _))).
  - lia.
  - unfold add, u32_wrap.
    rewrite (Z.mod_small (val a + val b) (2 ^ 32)) by lia.
    destruct (val a + val b >=? P) eqn:E; [|reflexivity].
    apply Z.geb_le in E; apply Z.mod_small; lia.
  - nia.
  - unfold mul, u64_wrap, u32_wrap, P_U64.
    rewrite (Z.mod_small (x * y) (2 ^ 64)) by nia.
    pose proof (mod_P_range (x * y)); apply Z.mod_small; lia.
Qed.

Lemma add_mul_no_overflow_witness :
  add 2013265920 2013265920 = 2013265919.
Proof.
  assert (H : canonical (mk_Elem 2013265920)) by (unfold canonical; cbn; P_arith).
  pose proof (proj1 (proj2 (add_mul_no_overflow _ _ 0 0 H H ltac:(lia) ltac:(lia)))) as E.
  cbn [val] in E; rewrite E; vm_compute; reflexivity.
Defined.

(** X10: on canonical operands the raw [sub] takes its correcting branch
    ([x > P], adding [P] back with wrapping) exactly when [lhs < rhs], and
    the wrapped difference is never [P] itself; the result is [lhs - rhs]
    or [lhs - rhs + P]. *)
Theorem sub_wrapping_branch (a b : Elem) :
  canonical a -> canonical b ->
  u32_wrap (val a - val b) <> P /\
  (u32_wrap (val a - val b) >? P) = (val a <? val b) /\
  sub (val a) (val b) =
    (if val a <? val b then val a - val b + P else val a - val b).
Proof.
  unfold canonical; intros Ha Hb.
  assert (HP : P = 2013265921) by exact P_eq.
  assert (W : u32_wrap (val a - val b) =
              if val a <? val b then val a - val b + 2 ^ 32 else val a - val b).
  { unfold u32_wrap; destruct (Z.ltb_spec (val a) (val b));
      Z.to_euclidean_division_equations; lia. }
  unfold sub; rewrite W, !Z.gtb_ltb.
  destruct (Z.ltb_spec (val a) (val b)).
  - rewrite (proj2 (Z.ltb_lt P _)) by lia.
    refine (conj _ (conj eq_refl _)); [lia|].
    unfold u32_wrap; Z.to_euclidean_division_equations; lia.
  - rewrite (proj2 (Z.ltb_ge P _)) by lia.
    refine (conj _ (conj eq_refl eq_refl)); lia.
Qed.

Lemma sub_wrapping_branch_witness : sub 3 5 = 3 - 5 + P.
Proof.
  assert (H3 : canonical (mk_Elem 3)) by (unfold canonical; cbn; P_arith).
  assert (H5 : canonical (mk_Elem 5)) by (unfold canonical; cbn; P_arith).
  exact (proj2 (proj2 (sub_wrapping_branch _ _ H3 H5))).
Defined.

(** X11: [Elem::random] is rejection sampling: it fails (the generator runs
    out) exactly when no drawn value is below [REJECT_CUTOFF]; otherwise it
    skips the values at or above the cutoff, returns [Elem::from(v)] for the
    first value [v] below it and consumes nothing after [v]. *)
Theorem Elem_random_rejection (rng : list Z) :
  (Elem_random rng = None <-> Forall (fun w => REJECT_CUTOFF <= w) rng) /\
  (forall e rest, Elem_random rng = Some (e, rest) <->
     exists skipped v, rng = skipped ++ v :: rest /\
       Forall (fun w => REJECT_CUTOFF <= w) skipped /\
       v < REJECT_CUTOFF /\ e = Elem_from_u32 v).
Proof.
  induction rng as [|v rng [IHn IHs]].
  - split; [split; [intros _; constructor | reflexivity]|].
    intros e rest; split; [discriminate|].
    intros (skipped & v & E & _); destruct skipped; discriminate.
  - rewrite Elem_random_cons.
    destruct (Z.geb_spec v REJECT_CUTOFF) as [Hv|Hv].
    + split.
      * rewrite IHn; split; [intros H; apply Forall_cons; [exact Hv|exact H]|].
        intros H; inversion H; assumption.
      * intros e rest; rewrite IHs; split.
        -- intros (sk & w & E & F & Hw & He).
           exists (v :: sk), w; cbn; rewrite E.
           refine (conj eq_refl (conj _ (conj Hw He))); apply Forall_cons; [exact Hv|exact F].
        -- intros ([|v' sk] & w & E & F & Hw & He); cbn in E; injection E as E1 E2.
           ++ lia.
           ++ exists sk, w; subst; inversion F; auto.
    + split.
      * split; [discriminate|]. intros H; inversion H; lia.
      * intros e rest; split.
        -- intros E; injection E as <- <-; exists [], v; cbn; auto.
        -- intros ([|v' sk] & w & E & F & Hw & He); cbn in E; injection E as E1 E2.
           ++ subst; reflexivity.
           ++ subst; inversion F; lia.
Qed.

(** X12: the cutoff of [Elem::random] is [2 * P], and each canonical value
    [r] is [Elem::from(v)] for exactly two accepted draws [v], namely [r]
    and [r + P]: every field element is equally likely. *)
Theorem Elem_random_cutoff_preimages (r : Elem) (v : Z) :
  canonical r -> 0 <= v < REJECT_CUTOFF ->
  REJECT_CUTOFF = 2 * P /\ (Elem_from_u32 v = r <-> v = val r \/ v = val r + P).
Proof.
  unfold canonical; rewrite REJECT_CUTOFF_eq; intros Hr Hv.
  split; [reflexivity|].
  pose proof P_pos as HP.
  split.
  - intros <-; cbn [val Elem_from_u32].
    destruct (Z.ltb_spec v P); [left|right]; rewrite P_eq in *;
      Z.to_euclidean_division_equations; lia.
  - intros [E|E]; apply canonical_eq; cbn [val Elem_from_u32]; subst v;
      rewrite P_eq in *; Z.to_euclidean_division_equations; lia.
Qed.

Lemma Elem_random_cutoff_preimages_witness :
  Elem_from_u32 (5 + P) = mk_Elem 5.
Proof.
  assert (H : canonical (mk_Elem 5)) by (unfold canonical; cbn; P_arith).
  apply (proj2 (Elem_random_cutoff_preimages (mk_Elem 5) (5 + P) H
           ltac:(rewrite REJECT_CUTOFF_eq, P_eq; lia))).
  right; reflexivity.
Defined.


(** X14: when [READ_PTR] is inside an [INPUT] region of at most [3 * 2^30]
    words (so no [usize] sum wraps), a call that returns read its header at
    [READ_PTR] and its payload from the words right after it, all inside the
    region, and moved [READ_PTR] strictly forward past them, as the
    [SAFETY] comment of the slice states. *)
Theorem host_sendrecv_in_bounds (INPUT : Region) (rp channel : Z) (buf data : list Z)
    (nbytes rp' : Z) :
  0 <= rp < len_words INPUT -> len_words INPUT <= 3 * 2 ^ 30 ->
  host_sendrecv INPUT rp channel buf = Returned data nbytes rp' ->
  nbytes = word_at INPUT rp /\
  data = map (word_at INPUT) (zseq (rp + 1) (Z.of_nat (length data))) /\
  rp' = rp + 1 + Z.of_nat (length data) /\
  rp < rp' < len_words INPUT.
Proof.
  intros Hrp Hlen.
  unfold host_sendrecv; cbv zeta.
  rewrite (usize_wrap_small (rp + 1)) by lia.
  set (nw := usize_wrap (usize_wrap (word_at INPUT rp + WORD_SIZE) - 1) / WORD_SIZE).
  assert (Hnw : 0 <= nw < 2 ^ 30).
  { pose proof (usize_wrap_range (usize_wrap (word_at INPUT rp + WORD_SIZE) - 1)).
    unfold nw, WORD_SIZE in *; split; [apply Z.div_pos; lia|].
    apply Z.div_lt_upper_bound; lia. }
  rewrite (usize_wrap_small (rp + 1 + nw)) by lia.
  destruct (Z.ltb_spec (rp + 1 + nw) (len_words INPUT)) as [Hlt|]; [|discriminate].
  intros E; injection E as <- <- <-.
  rewrite length_map, length_zseq, Z2Nat.id by lia.
  refine (conj eq_refl (conj eq_refl (conj eq_refl _))); lia.
Qed.

Lemma host_sendrecv_in_bounds_witness :
  0 < 3 < 4.
Proof.
  pose proof (host_sendrecv_in_bounds (mk_Region 4 (fun i => if i =? 0 then 8 else 0))
                0 0 [] [0; 0] 8 3 ltac:(cbn; lia) ltac:(cbn; lia)
                ltac:(vm_compute; reflexivity)) as (_ & _ & _ & H).
  exact H.
Defined.
